(** * RadioAnnouncer: announcement scheduling and cancellation

    A shallow embedding of [src/utils/RadioAnnouncer.ts].  The class is a
    single mutable object driven by the browser's event loop, so the model
    is an explicit state machine:

    - [Session] holds the private fields of the class;
    - [World] adds what the class reaches through [window] and the audio
      context: the clock, the table of armed timeouts, the promises returned
      by [generateAnnouncement], the suspended [await]s, the audio graph and
      the console;
    - [Label] lists the macrotasks the event loop can deliver, and [step]
      runs one of them to completion (JavaScript is run-to-completion and
      promise continuations are microtasks, so a settling promise resumes
      its awaiters inside the same step). *)

From Stdlib Require Import ZArith Lia String Ascii Bool List.
From stdpp Require Import base tactics option list numbers strings.
Import ListNotations.

#[local] Open Scope string_scope.
#[local] Open Scope Z_scope.

(** ** JavaScript values *)

Module JS.

(** [n++] on a number that holds an integer in [0, 2^53].  Doubles
    represent these exactly; [2^53 + 1] is not representable and rounds
    back to [2^53]. *)
Definition incr (n : Z) : Z := if n <? 2 ^ 53 then n + 1 else n.

(** Truthiness of a string, of [string | null] and of a number. *)
Definition truthy_string (s : string) : bool :=
  match s with EmptyString => false | String _ _ => true end.

Definition truthy_opt (o : option string) : bool :=
  match o with Some s => truthy_string s | None => false end.

Definition truthy_number (n : Z) : bool := negb (n =? 0).

(** [a === b] for [a : string | null] and [b : string]. *)
Definition strict_eq (a : option string) (b : string) : bool :=
  match a with Some s => String.eqb s b | None => false end.

(** [String.prototype.trim] on strings whose code units are below 256:
    the white space and line terminators in that range are TAB, LF, VT,
    FF, CR, SP and NBSP. *)
Definition is_space (c : ascii) : bool :=
  let n := N_of_ascii c in
  ((9 <=? n)%N && (n <=? 13)%N) || (n =? 32)%N || (n =? 160)%N.

Fixpoint trim_start (s : list ascii) : list ascii :=
  match s with
  | c :: r => if is_space c then trim_start r else s
  | [] => []
  end.

Definition trim (s : string) : string :=
  string_of_list_ascii
    (rev (trim_start (rev (trim_start (list_ascii_of_string s))))).

End JS.

(** ** Completions: how a block of code ends *)

Inductive Completion (A : Type) : Type :=
| Normal (a : A)
| Throw (e : string).
Arguments Normal {A} a.
Arguments Throw {A} e.

(** ** Data *)

(** A decoded [AudioBuffer], known by its identity. *)
Definition AudioBuffer := nat.

(** The closures handed to [window.setTimeout]. *)
Inductive Callback : Type :=
| Countdown (myId : Z)                       (* startTimer, line 90 *)
| Debounce (stationName frequency : string). (* onStationChange, line 72 *)

Record TimerEntry : Type := mkTimer {
  t_id : Z;
  t_due : Z;
  t_cb : Callback
}.

(** The three suspension points of [generateAnnouncement]. *)
Inductive Stage : Type := AwaitScript | AwaitTts | AwaitDecode.

Inductive PromiseState : Type :=
| Pending (k : Stage)
| Fulfilled (v : option AudioBuffer)
| Rejected (e : string).

(** One call [generateAnnouncement(id, station, freq)] and the promise it
    returned. *)
Record Generation : Type := mkGen {
  g_id : Z;
  g_station : string;
  g_freq : string;
  g_state : PromiseState
}.

(** The fields of [GenerateContentResponse] the announcer reads. *)
Record Blob : Type := { data : option string }.
Record Part : Type := { inlineData : option Blob }.
Record Content : Type := { parts : option (list Part) }.
Record Candidate : Type := { content : option Content }.
Record Response : Type := {
  text : option string;
  candidates : option (list Candidate)
}.

(** The audio graph. *)
Inductive AudioNode : Type :=
| Speakers                 (* audioContext.destination *)
| Visualizer               (* this.destination *)
| GainNode (n : nat)
| SourceNode (n : nat).

#[export] Instance AudioNode_eq_dec : EqDecision AudioNode.
Proof. solve_decision. Defined.

Record Audio : Type := mkAudio {
  nextNode : nat;
  gains : list (nat * (Z * Z));          (* gain.value as a fraction *)
  edges : list (AudioNode * AudioNode);  (* connect(from, to) *)
  buffers : list (nat * AudioBuffer);    (* source.buffer *)
  started : list nat;                    (* sources started, not yet ended *)
  onended : list (nat * nat)             (* source, gain its handler captured *)
}.

(** What leaves the object other than through the audio graph. *)
Inductive Effect : Type :=
| GenerateScript (station freq : string)
| GenerateSpeech (script : string)
| DecodeAudio (audioData : string)
| ConsoleError (msg : string).

(** The private fields of [RadioAnnouncer]. *)
Record Session : Type := mkSession {
  timer : option Z;
  debounceTimer : option Z;
  currentSource : option nat;
  isPlayingMusic : bool;
  currentStationName : option string;
  currentFrequency : option string;
  stationId : Z;
  pendingBufferPromise : option nat
}.

Record World : Type := mkWorld {
  sess : Session;
  clock : Z;                       (* milliseconds *)
  timers : list TimerEntry;        (* armed timeouts, in arming order *)
  nextTimer : Z;                   (* next handle setTimeout returns *)
  promises : list Generation;      (* indexed by promise identity *)
  waiters : list (nat * Z);        (* playPendingAnnouncement(id) awaiting p *)
  audio : Audio;
  effects : list Effect;           (* newest first *)
  attempts : list (nat * Z * AudioBuffer)
    (* ghost: each hand-over to the audio wiring, with the promise the
       buffer came from and the epoch of the trigger; newest first *)
}.

(** The object after its constructor ran, in a fresh page. *)
Definition init_session : Session :=
  mkSession None None None false None None 0 None.

Definition init : World :=
  mkWorld init_session 0 [] 1 [] [] (mkAudio 0 [] [] [] [] []) [] [].

(** Field updates. *)
Definition with_sess (f : Session -> Session) (w : World) : World :=
  mkWorld (f (sess w)) (clock w) (timers w) (nextTimer w) (promises w)
          (waiters w) (audio w) (effects w) (attempts w).

Definition with_audio (f : Audio -> Audio) (w : World) : World :=
  mkWorld (sess w) (clock w) (timers w) (nextTimer w) (promises w)
          (waiters w) (f (audio w)) (effects w) (attempts w).

Definition set_timers (t : list TimerEntry) (w : World) : World :=
  mkWorld (sess w) (clock w) t (nextTimer w) (promises w)
          (waiters w) (audio w) (effects w) (attempts w).

Definition set_promises (ps : list Generation) (w : World) : World :=
  mkWorld (sess w) (clock w) (timers w) (nextTimer w) ps
          (waiters w) (audio w) (effects w) (attempts w).

Definition set_waiters (ws : list (nat * Z)) (w : World) : World :=
  mkWorld (sess w) (clock w) (timers w) (nextTimer w) (promises w)
          ws (audio w) (effects w) (attempts w).

Definition set_clock (t : Z) (w : World) : World :=
  mkWorld (sess w) t (timers w) (nextTimer w) (promises w)
          (waiters w) (audio w) (effects w) (attempts w).

Definition emit (e : Effect) (w : World) : World :=
  mkWorld (sess w) (clock w) (timers w) (nextTimer w) (promises w)
          (waiters w) (audio w) (e :: effects w) (attempts w).

Definition record_attempt (a : nat * Z * AudioBuffer) (w : World) : World :=
  mkWorld (sess w) (clock w) (timers w) (nextTimer w) (promises w)
          (waiters w) (audio w) (effects w) (a :: attempts w).

Definition set_timer (v : option Z) (s : Session) : Session :=
  mkSession v (debounceTimer s) (currentSource s) (isPlayingMusic s)
            (currentStationName s) (currentFrequency s) (stationId s)
            (pendingBufferPromise s).

Definition set_debounceTimer (v : option Z) (s : Session) : Session :=
  mkSession (timer s) v (currentSource s) (isPlayingMusic s)
            (currentStationName s) (currentFrequency s) (stationId s)
            (pendingBufferPromise s).

Definition set_currentSource (v : option nat) (s : Session) : Session :=
  mkSession (timer s) (debounceTimer s) v (isPlayingMusic s)
            (currentStationName s) (currentFrequency s) (stationId s)
            (pendingBufferPromise s).

Definition set_isPlayingMusic (v : bool) (s : Session) : Session :=
  mkSession (timer s) (debounceTimer s) (currentSource s) v
            (currentStationName s) (currentFrequency s) (stationId s)
            (pendingBufferPromise s).

Definition set_station (name freq : string) (s : Session) : Session :=
  mkSession (timer s) (debounceTimer s) (currentSource s) (isPlayingMusic s)
            (Some name) (Some freq) (stationId s) (pendingBufferPromise s).

Definition set_stationId (v : Z) (s : Session) : Session :=
  mkSession (timer s) (debounceTimer s) (currentSource s) (isPlayingMusic s)
            (currentStationName s) (currentFrequency s) v
            (pendingBufferPromise s).

Definition set_pendingBufferPromise (v : option nat) (s : Session) : Session :=
  mkSession (timer s) (debounceTimer s) (currentSource s) (isPlayingMusic s)
            (currentStationName s) (currentFrequency s) (stationId s) v.

(** ** Timers: [window.setTimeout] and [clearTimeout] *)

Definition D_settle : Z := 800.
Definition D_announce : Z := 15000.

Definition setTimeout (cb : Callback) (delay : Z) (w : World) : Z * World :=
  (nextTimer w,
   mkWorld (sess w) (clock w)
           (timers w ++ [mkTimer (nextTimer w) (clock w + delay) cb])
           (nextTimer w + 1) (promises w) (waiters w) (audio w)
           (effects w) (attempts w)).

Definition clearTimeout (h : Z) (w : World) : World :=
  set_timers (List.filter (fun e => negb (t_id e =? h)) (timers w)) w.

(** ** The two timer helpers (lines 77-94) *)

Definition stopTimer (w : World) : World :=
  match timer (sess w) with
  | Some h =>
      if JS.truthy_number h
      then with_sess (set_timer None) (clearTimeout h w)
      else w
  | None => w
  end.

Definition startTimer (w : World) : World :=
  let w := stopTimer w in
  if isPlayingMusic (sess w) && JS.truthy_opt (currentStationName (sess w))
  then
    let myId := stationId (sess w) in
    let (h, w) := setTimeout (Countdown myId) D_announce w in
    with_sess (set_timer (Some h)) w
  else w.

(** ** The two entry points (lines 34-75) *)

Definition setMusicPlaying (playing : bool) (w : World) : World :=
  let w := with_sess (set_isPlayingMusic playing) w in
  if playing then
    if JS.truthy_opt (currentStationName (sess w)) then startTimer w else w
  else stopTimer w.

Definition onStationChange (stationName frequency : string) (w : World)
  : World :=
  if JS.strict_eq (currentStationName (sess w)) stationName then w else
  let w := with_sess (set_station stationName frequency) w in
  let w := with_sess (fun s => set_stationId (JS.incr (stationId s)) s) w in
  let w := with_sess (set_pendingBufferPromise None) w in
  let w := stopTimer w in
  let w := match debounceTimer (sess w) with
           | Some h => if JS.truthy_number h then clearTimeout h w else w
           | None => w
           end in
  let w := if isPlayingMusic (sess w) then startTimer w else w in
  let (h, w) := setTimeout (Debounce stationName frequency) D_settle w in
  with_sess (set_debounceTimer (Some h)) w.

(** ** Actions: code that changes the world and may throw

    State changes made before a [throw] stay, as in JavaScript. *)

Definition Act (A : Type) : Type := World -> Completion A * World.

Definition ret {A} (a : A) : Act A := fun w => (Normal a, w).

Definition throw {A} (e : string) : Act A := fun w => (Throw e, w).

Definition bind {A B} (m : Act A) (k : A -> Act B) : Act B :=
  fun w =>
    match m w with
    | (Normal a, w') => k a w'
    | (Throw e, w') => (Throw e, w')
    end.

(** [try { body } catch (e) { handler e }] *)
Definition try_catch {A} (body : Act A) (handler : string -> Act A) : Act A :=
  fun w =>
    match body w with
    | (Normal a, w') => (Normal a, w')
    | (Throw e, w') => handler e w'
    end.

(** [await x], where [x] completes as [r]. *)
Definition await {A} (r : Completion A) : Act A := fun w => (r, w).

Definition modify (f : World -> World) : Act unit := fun w => (Normal tt, f w).

Definition console_error (msg : string) : Act unit :=
  modify (emit (ConsoleError msg)).

Declare Scope act_scope.
Delimit Scope act_scope with act.
Notation "'let!' x := m 'in' k" := (bind m (fun x => k))
  (at level 10, x name, m at level 100, k at level 200) : act_scope.
Notation "'do!' m 'in' k" := (bind m (fun _ => k))
  (at level 10, m at level 100, k at level 200) : act_scope.
#[local] Open Scope act_scope.

(** ** Audio output wiring (lines 165-187)

    Each Web Audio call can throw; [AudioFault] names the call that does in
    one run of the wiring. *)

Inductive AudioFault : Type :=
| NoFault
| AtCreateGain
| AtConnectSpeakers
| AtConnectVisualizer
| AtCreateBufferSource
| AtSetBuffer
| AtConnectSource
| AtStart.

#[export] Instance AudioFault_eq_dec : EqDecision AudioFault.
Proof. solve_decision. Defined.

Definition guarded {A} (here fault : AudioFault) (m : Act A) : Act A :=
  if decide (fault = here) then throw "audio" else m.

Definition createNode : Act nat :=
  fun w =>
    let a := audio w in
    (Normal (nextNode a),
     with_audio (fun a => mkAudio (S (nextNode a)) (gains a) (edges a)
                                  (buffers a) (started a) (onended a)) w).

Definition setGainValue (g : nat) (v : Z * Z) : Act unit :=
  modify (with_audio (fun a => mkAudio (nextNode a) ((g, v) :: gains a)
                                       (edges a) (buffers a) (started a)
                                       (onended a))).

Definition connect (from to : AudioNode) : Act unit :=
  modify (with_audio (fun a => mkAudio (nextNode a) (gains a)
                                       ((from, to) :: edges a) (buffers a)
                                       (started a) (onended a))).

Definition setBuffer (s : nat) (b : AudioBuffer) : Act unit :=
  modify (with_audio (fun a => mkAudio (nextNode a) (gains a) (edges a)
                                       ((s, b) :: buffers a) (started a)
                                       (onended a))).

Definition start (s : nat) : Act unit :=
  modify (with_audio (fun a => mkAudio (nextNode a) (gains a) (edges a)
                                       (buffers a) (s :: started a)
                                       (onended a))).

Definition setOnended (s g : nat) : Act unit :=
  modify (with_audio (fun a => mkAudio (nextNode a) (gains a) (edges a)
                                       (buffers a) (started a)
                                       ((s, g) :: onended a))).

(** [node.disconnect()]: drop every outgoing connection of [node]. *)
Definition disconnect (node : AudioNode) (a : Audio) : Audio :=
  mkAudio (nextNode a) (gains a)
          (List.filter (fun e => negb (bool_decide (fst e = node))) (edges a))
          (buffers a) (started a) (onended a).

Definition wire (fault : AudioFault) (buffer : AudioBuffer) : Act unit :=
  let! gainNode := guarded AtCreateGain fault createNode in
  do! setGainValue gainNode (11, 10) in
  do! guarded AtConnectSpeakers fault (connect (GainNode gainNode) Speakers) in
  do! guarded AtConnectVisualizer fault
        (connect (GainNode gainNode) Visualizer) in
  let! source := guarded AtCreateBufferSource fault createNode in
  do! guarded AtSetBuffer fault (setBuffer source buffer) in
  do! guarded AtConnectSource fault
        (connect (SourceNode source) (GainNode gainNode)) in
  do! guarded AtStart fault (start source) in
  do! modify (with_sess (set_currentSource (Some source))) in
  setOnended source gainNode.

(** The [onended] handler (lines 180-187), run when source [s] finishes. *)
Definition source_ended (s : nat) (w : World) : option World :=
  if bool_decide (s ∈ started (audio w)) then
    let w := with_audio
               (fun a => mkAudio (nextNode a) (gains a) (edges a) (buffers a)
                           (List.filter (fun x => negb (x =? s)%nat) (started a))
                           (onended a)) w in
    match List.find (fun h => (fst h =? s)%nat) (onended (audio w)) with
    | Some (_, g) =>
        let w := if bool_decide (currentSource (sess w) = Some s)
                 then with_sess (set_currentSource None) w else w in
        let w := with_audio (disconnect (SourceNode s)) w in
        Some (with_audio (disconnect (GainNode g)) w)
    | None => Some w
    end
  else None.

(** ** The playback trigger (lines 152-191), split at its [await] *)

(** Lines 152-157: the checks made when the countdown fires.  [Some p] is
    the promise the function goes on to await. *)
Definition playPendingAnnouncement_begin (id : Z) (w : World) : option nat :=
  if negb (stationId (sess w) =? id) || negb (isPlayingMusic (sess w))
  then None
  else pendingBufferPromise (sess w).

(** Lines 159-190: from the [await] on.  [r] is how the awaited promise [p]
    completed. *)
Definition playPendingAnnouncement_resume
    (p : nat) (id : Z) (r : Completion (option AudioBuffer))
    (fault : AudioFault) : Act unit :=
  try_catch
    (let! buffer := await r in
     fun w =>
       if negb (stationId (sess w) =? id) || negb (isPlayingMusic (sess w))
       then ret tt w
       else match buffer with
            | None => ret tt w
            | Some b =>
                (do! modify (record_attempt (p, id, b)) in wire fault b) w
            end)
    (fun e => console_error "Error playing announcement").

(** How [await promise] completes once the promise is settled. *)
Definition settled (st : PromiseState) : option (Completion (option AudioBuffer)) :=
  match st with
  | Pending _ => None
  | Fulfilled v => Some (Normal v)
  | Rejected e => Some (Throw e)
  end.

(** The countdown callback (lines 90-92). *)
Definition countdown_fired (myId : Z) (fault : AudioFault) (w : World) : World :=
  match playPendingAnnouncement_begin myId w with
  | None => w
  | Some p =>
      match promises w !! p with
      | None => w
      | Some G =>
          match settled (g_state G) with
          | None => set_waiters (waiters w ++ [(p, myId)]) w
          | Some r => snd (playPendingAnnouncement_resume p myId r fault w)
          end
      end
  end.

(** ** The generation pipeline (lines 96-150) *)

(** What the body of [generateAnnouncement] does next: suspend at an
    [await], or [return]. *)
Inductive Next : Type :=
| Suspend (k : Stage)
| Return (v : option AudioBuffer).

(** What the awaited external call delivers. *)
Inductive Delivery : Type :=
| ScriptResponse (r : Completion Response)
| TtsResponse (r : Completion Response)
| Decoded (r : Completion AudioBuffer).

(** [ttsResponse.candidates?.[0]?.content?.parts?.[0]?.inlineData?.data] *)
Definition audioData_of (r : Response) : option string :=
  cs ← candidates r; c ← head cs; ct ← content c; ps ← parts ct;
  pt ← head ps; bl ← inlineData pt; data bl.

(** Lines 108-128: after the script request completes. *)
Definition after_script (id : Z) (r : Completion Response) : Act Next :=
  let! scriptResponse := await r in
  fun w =>
    if negb (stationId (sess w) =? id) then ret (Return None) w else
    match JS.trim <$> text scriptResponse with
    | None => ret (Return None) w
    | Some script =>
        if negb (JS.truthy_string script) then ret (Return None) w
        else (do! modify (emit (GenerateSpeech script)) in
              ret (Suspend AwaitTts)) w
    end.

(** Lines 130-142: after the speech request completes. *)
Definition after_tts (id : Z) (r : Completion Response) : Act Next :=
  let! ttsResponse := await r in
  fun w =>
    if negb (stationId (sess w) =? id) then ret (Return None) w else
    match audioData_of ttsResponse with
    | None => ret (Return None) w
    | Some audioData =>
        if negb (JS.truthy_string audioData) then ret (Return None) w
        else (do! modify (emit (DecodeAudio audioData)) in
              ret (Suspend AwaitDecode)) w
    end.

(** Line 144: after decoding completes. *)
Definition after_decode (r : Completion AudioBuffer) : Act Next :=
  let! audioBuffer := await r in
  ret (Return (Some audioBuffer)).

(** The [catch] clause (lines 146-149). *)
Definition gen_catch (e : string) : Act Next :=
  do! console_error "Radio Announcer Gen Error:" in ret (Return None).

(** Resuming the body at stage [k] with delivery [d]; [None] when [d] is not
    what stage [k] awaits. *)
Definition generateAnnouncement_resume (id : Z) (k : Stage) (d : Delivery)
  : option (Act Next) :=
  match k, d with
  | AwaitScript, ScriptResponse r => Some (try_catch (after_script id r) gen_catch)
  | AwaitTts, TtsResponse r => Some (try_catch (after_tts id r) gen_catch)
  | AwaitDecode, Decoded r => Some (try_catch (after_decode r) gen_catch)
  | _, _ => None
  end.

(** The promise of an [async] function after its body completed as [c]. *)
Definition promise_of (c : Completion Next) : PromiseState :=
  match c with
  | Normal (Suspend k) => Pending k
  | Normal (Return v) => Fulfilled v
  | Throw e => Rejected e
  end.

(** The call itself: it runs up to the first [await] (the script request)
    and returns a fresh pending promise. *)
Definition generateAnnouncement (id : Z) (station freq : string) (w : World)
  : nat * World :=
  (length (promises w),
   emit (GenerateScript station freq)
        (set_promises
           (promises w ++ [mkGen id station freq (Pending AwaitScript)]) w)).

(** The debounce callback (lines 72-74). *)
Definition debounce_fired (stationName frequency : string) (w : World) : World :=
  let (p, w) := generateAnnouncement (stationId (sess w))
                                     stationName frequency w in
  with_sess (set_pendingBufferPromise (Some p)) w.

(** Resume, in order, every [playPendingAnnouncement] suspended on [p]. *)
Fixpoint resume_all (p : nat) (r : Completion (option AudioBuffer))
    (ws : list (nat * Z)) (faults : list AudioFault) (w : World) : World :=
  match ws with
  | [] => w
  | (q, id) :: ws' =>
      if (q =? p)%nat
      then resume_all p r ws' (tail faults)
             (snd (playPendingAnnouncement_resume p id r
                     (List.hd NoFault faults) w))
      else resume_all p r ws' faults w
  end.

(** A delivery to promise [p]: its body runs on; if that settles the
    promise, the awaiters run as microtasks. *)
Definition deliver (p : nat) (d : Delivery) (faults : list AudioFault)
    (w : World) : option World :=
  match promises w !! p with
  | Some (mkGen id station freq (Pending k)) =>
      match generateAnnouncement_resume id k d with
      | Some body =>
          let (c, w) := body w in
          let st := promise_of c in
          let w := set_promises
                     (<[p := mkGen id station freq st]> (promises w)) w in
          match settled st with
          | None => Some w
          | Some r =>
              let mine := waiters w in
              let w := set_waiters
                         (List.filter (fun x => negb (fst x =? p)%nat) mine)
                         w in
              Some (resume_all p r mine faults w)
          end
      | None => None
      end
  | _ => None
  end.

(** ** The event loop *)

Inductive Label : Type :=
| StationChange (name freq : string)   (* onStationChange(name, freq) *)
| SetMusicPlaying (playing : bool)     (* setMusicPlaying(playing) *)
| Elapse (d : Z)                       (* d ms pass, nothing runs *)
| TimerFire (h : Z) (fault : AudioFault)
| Deliver (p : nat) (d : Delivery) (faults : list AudioFault)
| Ended (s : nat).                     (* source s finished playing *)

Definition find_timer (h : Z) (w : World) : option TimerEntry :=
  List.find (fun e => t_id e =? h) (timers w).

Definition run_callback (cb : Callback) (fault : AudioFault) (w : World)
  : World :=
  match cb with
  | Countdown myId => countdown_fired myId fault w
  | Debounce n f => debounce_fired n f w
  end.

(** Time only passes up to the next due timer, and a timer runs once the
    clock has reached its due time: timers fire exactly when due. *)
Definition step (l : Label) (w : World) : option World :=
  match l with
  | StationChange name freq => Some (onStationChange name freq w)
  | SetMusicPlaying playing => Some (setMusicPlaying playing w)
  | Elapse d =>
      if (0 <? d) && forallb (fun e => clock w + d <=? t_due e) (timers w)
      then Some (set_clock (clock w + d) w) else None
  | TimerFire h fault =>
      match find_timer h w with
      | Some e =>
          if t_due e <=? clock w
          then Some (run_callback (t_cb e) fault (clearTimeout h w))
          else None
      | None => None
      end
  | Deliver p d faults => deliver p d faults w
  | Ended s => source_ended s w
  end.

Fixpoint exec (ls : list Label) (w : World) : option World :=
  match ls with
  | [] => Some w
  | l :: ls' =>
      match step l w with
      | Some w' => exec ls' w'
      | None => None
      end
  end.

Definition reachable (w : World) : Prop := ∃ ls, exec ls init = Some w.

(** ** Observations *)

(** The generation requests issued so far, newest first. *)
Definition is_GenerateScript (e : Effect) : bool :=
  match e with GenerateScript _ _ => true | _ => false end.

Definition gen_requests (w : World) : list Effect :=
  List.filter is_GenerateScript (effects w).

(** The hand-overs to the audio wiring of buffers that came from promise [p]. *)
Definition attempts_from (p : nat) (w : World) : list (nat * Z * AudioBuffer) :=
  List.filter (fun a => (fst (fst a) =? p)%nat) (attempts w).

(** A started source whose signal reaches the speakers. *)
Definition reaches_speakers (a : Audio) (s : nat) : bool :=
  existsb (fun g => bool_decide ((SourceNode s, GainNode g) ∈ edges a)
                    && bool_decide ((GainNode g, Speakers) ∈ edges a))
          (seq 0 (nextNode a)).

Definition audible (w : World) : list nat :=
  List.filter (reaches_speakers (audio w)) (started (audio w)).

(** Everything the scheduling logic reads: the world without the audio
    graph, the console, the ghost log and [currentSource]. *)
Definition core (w : World) :=
  (timer (sess w), debounceTimer (sess w), isPlayingMusic (sess w),
   currentStationName (sess w), currentFrequency (sess w),
   stationId (sess w), pendingBufferPromise (sess w),
   clock w, timers w, nextTimer w, promises w, waiters w).

Definition is_Debounce (cb : Callback) : bool :=
  match cb with Debounce _ _ => true | Countdown _ => false end.


(** What the two entry points leave alone. *)
Definition rest (w : World) :=
  (clock w, promises w, waiters w, audio w, effects w, attempts w,
   currentSource (sess w)).


(** The armed countdown timeouts and the armed settle (debounce) timeouts. *)
Definition countdowns (w : World) : list TimerEntry :=
  List.filter (fun e => negb (is_Debounce (t_cb e))) (timers w).

Definition settles (w : World) : list TimerEntry :=
  List.filter (fun e => is_Debounce (t_cb e)) (timers w).



(** The world a trace leads to from [init] ([init] itself if the trace
    cannot run). *)
Definition after (ls : list Label) : World := default init (exec ls init).

(** The audio graph is well formed: handlers pair each source with its own
    gain node, both already created, and every playing source is wired
    through its gain node to the speakers and the visualizer. *)
Record AudioInv (a : Audio) : Prop := mkAudioInv {
  ai_bound : ∀ s g, In (s, g) (onended a) →
      (s < nextNode a)%nat ∧ (g < nextNode a)%nat;
  ai_pair : ∀ s g s' g', In (s, g) (onended a) → In (s', g') (onended a) →
      (s = s' ↔ g = g');
  ai_wired : ∀ s, In s (started a) →
      ∃ g, In (s, g) (onended a)
           ∧ In (SourceNode s, GainNode g) (edges a)
           ∧ In (GainNode g, Speakers) (edges a)
           ∧ In (GainNode g, Visualizer) (edges a)
}.

(** Gain node [g] is connected to the speakers and no [onended] handler
    will ever disconnect it. *)
Definition leaked (g : nat) (a : Audio) : Prop :=
  In (GainNode g, Speakers) (edges a)
  ∧ (g < nextNode a)%nat
  ∧ ∀ s, ¬ In (s, g) (onended a).

(** The audio calls after which a throw leaves the new gain node connected
    to the speakers. *)
Definition after_connect (fault : AudioFault) : bool :=
  match fault with
  | AtConnectVisualizer | AtCreateBufferSource | AtSetBuffer
  | AtConnectSource | AtStart => true
  | NoFault | AtCreateGain | AtConnectSpeakers => false
  end.

(** The audio graph the wiring leaves behind, by the call that throws. *)
Definition wired_audio (fault : AudioFault) (b : AudioBuffer) (a : Audio)
  : Audio :=
  let g := nextNode a in
  let s := S g in
  let gs := (g, (11, 10)) :: gains a in
  let e1 := (GainNode g, Speakers) :: edges a in
  let e2 := (GainNode g, Visualizer) :: e1 in
  let e3 := (SourceNode s, GainNode g) :: e2 in
  let bs := (s, b) :: buffers a in
  match fault with
  | AtCreateGain => a
  | AtConnectSpeakers =>
      mkAudio s gs (edges a) (buffers a) (started a) (onended a)
  | AtConnectVisualizer => mkAudio s gs e1 (buffers a) (started a) (onended a)
  | AtCreateBufferSource => mkAudio s gs e2 (buffers a) (started a) (onended a)
  | AtSetBuffer => mkAudio (S s) gs e2 (buffers a) (started a) (onended a)
  | AtConnectSource => mkAudio (S s) gs e2 bs (started a) (onended a)
  | AtStart => mkAudio (S s) gs e3 bs (started a) (onended a)
  | NoFault =>
      mkAudio (S s) gs e3 bs (s :: started a) ((s, g) :: onended a)
  end.

Definition resp_text (s : string) : Response :=
  {| text := Some s; candidates := None |}.

Definition resp_audio (s : string) : Response :=
  {| text := None;
     candidates :=
       Some [ {| content :=
                   Some {| parts :=
                             Some [ {| inlineData :=
                                         Some {| data := Some s |} |} ] |} |} ]
  |}.

(** Tune with music playing; generation completes before the countdown
    fires.  [announce_trace fault] ends with the countdown firing, the
    audio call [fault] throwing. *)
Definition announce_trace (fault : AudioFault) : list Label :=
  [ StationChange "Funk" "95.5"; SetMusicPlaying true;
    Elapse 800; TimerFire 1 NoFault;
    Deliver 0 (ScriptResponse (Normal (resp_text "Funk on 95.5"))) [];
    Deliver 0 (TtsResponse (Normal (resp_audio "UklGRg=="))) [];
    Deliver 0 (Decoded (Normal 7%nat)) [];
    Elapse 14200; TimerFire 2 fault ].

(** ** The callers: [index.tsx] and the dial of [PromptDjMidi]

    [main] wires the dial to the announcer: the dial's [setStation] emits
    [prompts-changed] with the map of prompts, and the listener derives the
    station name and frequency from the first prompt with a positive weight;
    [playback-state-changed] is forwarded as [setMusicPlaying]. *)

Module Dial.

(** [`${i}`] and [toFixed] print integers in decimal.  [show_aux] prints the
    digits of [n >= 0] in front of [acc]; [fuel] bounds the number of
    digits. *)
Definition digit_char (d : Z) : ascii := ascii_of_N (Z.to_N (48 + d)).

Fixpoint show_aux (fuel : nat) (n : Z) (acc : string) : string :=
  match fuel with
  | O => acc
  | S fuel' =>
      let acc' := String (digit_char (n mod 10)) acc in
      if n <? 10 then acc' else show_aux fuel' (n / 10) acc'
  end.

Definition show_nat (n : Z) : string :=
  show_aux (S (Z.to_nat (Z.log2 n))) n "".

(** [(tenths / 10).toFixed(1)], for a number that is an exact multiple of
    one tenth. *)
Definition toFixed1 (tenths : Z) : string :=
  (if tenths <? 0 then "-" else "")
  ++ show_nat (Z.abs tenths / 10) ++ "." ++ show_nat (Z.abs tenths mod 10).

(** [(88.0 + (index * 1.5)).toFixed(1)] (index.tsx line 65, render line
    528).  For an integer [index] the sum is a multiple of 0.5, which a
    double holds exactly while it is below 2^52. *)
Definition frequency (index : Z) : string := toFixed1 (880 + 15 * index).

(** [s.split('-')] *)
Fixpoint split_on (sep : ascii) (s : string) : list string :=
  match s with
  | EmptyString => [EmptyString]
  | String c r =>
      if Ascii.eqb c sep then EmptyString :: split_on sep r
      else match split_on sep r with
           | p :: ps => String c p :: ps
           | [] => [String c EmptyString]
           end
  end.

(** [parseInt(s, 10)]; [None] is NaN.  The value is exact below 2^53. *)
Definition digit_of (c : ascii) : option Z :=
  let n := N_of_ascii c in
  if (48 <=? n)%N && (n <=? 57)%N then Some (Z.of_N n - 48) else None.

Fixpoint parse_digits (acc : Z) (s : string) : Z :=
  match s with
  | String c r =>
      match digit_of c with
      | Some d => parse_digits (acc * 10 + d) r
      | None => acc
      end
  | EmptyString => acc
  end.

Definition parseInt (s : string) : option Z :=
  let s := string_of_list_ascii (JS.trim_start (list_ascii_of_string s)) in
  let (sign, s) :=
    match s with
    | String "-"%char r => (-1, r)
    | String "+"%char r => (1, r)
    | _ => (1, s)
    end in
  match s with
  | String c _ =>
      match digit_of c with
      | Some _ => Some (sign * parse_digits 0 s)
      | None => None
      end
  | EmptyString => None
  end.

(** A [Prompt] (the weights this code assigns are 0 and 1). *)
Record Prompt : Type := mkPrompt {
  promptId : string;
  text : string;
  weight : Z;
  cc : Z;
  color : string
}.

(** [Map<string, Prompt>]: entries in insertion order, keys unique. *)
Definition PromptMap : Type := list (string * Prompt).

Fixpoint map_get (k : string) (m : PromptMap) : option Prompt :=
  match m with
  | [] => None
  | (k', p) :: m' => if String.eqb k' k then Some p else map_get k m'
  end.

(** [m.set(k, p)]: an existing key keeps its place. *)
Fixpoint map_set (k : string) (p : Prompt) (m : PromptMap) : PromptMap :=
  match m with
  | [] => [(k, p)]
  | (k', p') :: m' =>
      if String.eqb k' k then (k, p) :: m' else (k', p') :: map_set k p m'
  end.

(** [DEFAULT_PROMPTS] (index.tsx lines 140-157): colour and text. *)
Definition DEFAULT_PROMPTS : list (string * string) :=
  [ ("#9900ff", "Bossa Nova"); ("#5200ff", "Chillwave");
    ("#ff25f6", "Drum and Bass"); ("#2af6de", "Post Punk");
    ("#ffdd28", "Shoegaze"); ("#2af6de", "Funk");
    ("#9900ff", "Chiptune"); ("#3dffab", "Lush Strings");
    ("#d8ff3e", "Sparkling Arpeggios"); ("#d9b2ff", "Staccato Rhythms");
    ("#3dffab", "Punchy Kick"); ("#ffdd28", "Dubstep");
    ("#ff25f6", "K Pop"); ("#d8ff3e", "Neo Soul");
    ("#5200ff", "Trip Hop"); ("#d9b2ff", "Thrash") ].

(** [buildInitialPrompts] (index.tsx lines 116-138), over the table it
    iterates: the loop body for index [i], then the loop. *)
Definition initial_prompt (i : Z) (d : string * string) : Prompt :=
  mkPrompt ("prompt-" ++ show_nat i) (snd d) (if i =? 0 then 1 else 0) i
           (fst d).

Fixpoint build_from (i : Z) (defaults : list (string * string))
    (prompts : PromptMap) : PromptMap :=
  match defaults with
  | [] => prompts
  | d :: ds =>
      let p := initial_prompt i d in
      build_from (i + 1) ds (map_set (promptId p) p prompts)
  end.

Definition buildInitialPromptsFrom (defaults : list (string * string))
  : PromptMap := build_from 0 defaults [].

Definition buildInitialPrompts : PromptMap :=
  buildInitialPromptsFrom DEFAULT_PROMPTS.

(** The [prompts-changed] listener, announcer part (index.tsx lines
    58-71).  [first_active] is the loop with its [break]; [station_of] is
    the body for the prompt it stops at. *)
Fixpoint first_active (prompts : PromptMap) : option Prompt :=
  match prompts with
  | [] => None
  | (_, prompt) :: rest =>
      if 0 <? weight prompt then Some prompt else first_active rest
  end.

Definition station_of (prompt : Prompt) : option (string * string) :=
  match split_on "-"%char (promptId prompt) with
  | [_; second] =>
      match parseInt second with
      | Some index => Some (text prompt, frequency index)
      | None => None
      end
  | _ => None
  end.

Definition on_prompts_changed (prompts : PromptMap) (w : World) : World :=
  match first_active prompts with
  | Some prompt =>
      match station_of prompt with
      | Some (name, freq) => onStationChange name freq w
      | None => w
      end
  | None => w
  end.

(** The [playback-state-changed] listener (index.tsx lines 79-89). *)
Definition on_playback_state (playbackState : string) (w : World) : World :=
  setMusicPlaying (String.eqb playbackState "playing") w.

(** The dial: the fields of [PromptDjMidi] that [setStation] uses. *)
Record State : Type := mkState {
  prompts : PromptMap;
  promptKeys : list string;
  activeIndex : Z
}.

(** The constructor (part_001 lines 368-378): the keys in map order, and
    the position of the first key whose prompt has weight 1. *)
Fixpoint find_active (i : Z) (keys : list string) (m : PromptMap) : option Z :=
  match keys with
  | [] => None
  | k :: ks =>
      match map_get k m with
      | Some p => if weight p =? 1 then Some i else find_active (i + 1) ks m
      | None => find_active (i + 1) ks m
      end
  end.

Definition create (initialPrompts : PromptMap) : State :=
  let keys := List.map fst initialPrompts in
  mkState initialPrompts keys (default 0 (find_active 0 keys initialPrompts)).

(** [setStation] (part_001 lines 428-447).  The [forEach] over the keys
    sets every weight; [newPrompts.get(key)!] of a missing key would make
    [p.weight = ...] throw.  The result carries the detail of the
    [prompts-changed] event, if one is dispatched. *)
Fixpoint set_weights (i index : Z) (keys : list string) (m : PromptMap)
  : Completion PromptMap :=
  match keys with
  | [] => Normal m
  | key :: ks =>
      match map_get key m with
      | Some p =>
          let p' := mkPrompt (promptId p) (text p)
                             (if i =? index then 1 else 0) (cc p) (color p) in
          set_weights (i + 1) index ks (map_set key p' m)
      | None => Throw "TypeError"
      end
  end.

Definition setStation (index : Z) (d : State)
  : Completion (State * option PromptMap) :=
  if index =? activeIndex d then Normal (d, None)
  else
    match set_weights 0 index (promptKeys d) (prompts d) with
    | Normal newPrompts =>
        Normal (mkState newPrompts (promptKeys d) index, Some newPrompts)
    | Throw e => Throw e
    end.

(** The frequency the display shows (render, part_001 line 528). *)
Definition displayed_frequency (d : State) : string :=
  frequency (activeIndex d).

(** [s] contains the character [c]. *)
Fixpoint has_char (c : ascii) (s : string) : bool :=
  match s with
  | EmptyString => false
  | String c' r => Ascii.eqb c' c || has_char c r
  end.

(** The entries [buildInitialPrompts] makes for the table [defaults],
    numbered from [i]. *)
Fixpoint entries (i : Z) (defaults : list (string * string)) : PromptMap :=
  match defaults with
  | [] => []
  | d :: ds =>
      (promptId (initial_prompt i d), initial_prompt i d)
        :: entries (i + 1) ds
  end.

(** [m] with the weight of the entry at position [index] (counting from
    [i]) set to 1 and all other weights set to 0. *)
Fixpoint reweight (i index : Z) (m : PromptMap) : PromptMap :=
  match m with
  | [] => []
  | (k, p) :: m' =>
      (k, mkPrompt (promptId p) (text p) (if i =? index then 1 else 0)
                   (cc p) (color p))
        :: reweight (i + 1) index m'
  end.

(** [m] has the keys, ids and texts that [buildInitialPrompts] gives the
    table [defaults]; the weights are free. *)
Definition shaped (defaults : list (string * string)) (m : PromptMap) : Prop :=
  List.map (fun kp => (fst kp, promptId (snd kp), text (snd kp))) m
  = List.map (fun kp => (fst kp, promptId (snd kp), text (snd kp)))
      (entries 0 defaults).

End Dial.
(** ** The invariant of reachable worlds *)

Record Inv (w : World) : Prop := mkInv {
  inv_next : 0 < nextTimer w;
  inv_ids : ∀ e, In e (timers w) → 0 < t_id e < nextTimer w;
  inv_due : ∀ e, In e (timers w) → clock w <= t_due e;
  inv_timer : ∀ h, timer (sess w) = Some h → 0 < h < nextTimer w;
  inv_debounce : ∀ h, debounceTimer (sess w) = Some h → 0 < h < nextTimer w;
  inv_distinct : ∀ h, timer (sess w) = Some h → debounceTimer (sess w) ≠ Some h;
  inv_countdown : ∀ e id, In e (timers w) → t_cb e = Countdown id →
      timer (sess w) = Some (t_id e) ∧ id = stationId (sess w)
      ∧ isPlayingMusic (sess w) = true
      ∧ JS.truthy_opt (currentStationName (sess w)) = true;
  inv_settle : ∀ e n f, In e (timers w) → t_cb e = Debounce n f →
      debounceTimer (sess w) = Some (t_id e)
      ∧ currentStationName (sess w) = Some n
      ∧ currentFrequency (sess w) = Some f
      ∧ pendingBufferPromise (sess w) = None;
  inv_pending : ∀ p, pendingBufferPromise (sess w) = Some p →
      ∃ G, promises w !! p = Some G ∧ g_id G = stationId (sess w)
           ∧ currentStationName (sess w) = Some (g_station G)
           ∧ currentFrequency (sess w) = Some (g_freq G);
  inv_waiters : ∀ p id, In (p, id) (waiters w) →
      ∃ G k, promises w !! p = Some G ∧ g_id G = id ∧ g_state G = Pending k;
  inv_epoch : ∀ p G, promises w !! p = Some G → g_id G <= stationId (sess w);
  inv_fulfilled : ∀ p G e, promises w !! p = Some G → g_state G ≠ Rejected e
}.

Lemma Inv_core w w' : core w = core w' → Inv w → Inv w'.
Proof.
  destruct w as [[] ? ? ? ? ? ? ? ?], w' as [[] ? ? ? ? ? ? ? ?].
  unfold core; cbn. intros H; inversion H; subst.
  intros [? ? ? ? ? ? ? ? ? ? ? ?]; by constructor.
Qed.

Lemma Inv_init : Inv init.
Proof.
  constructor; simpl; try done.
Qed.

(** ** Footprints of the playback trigger *)

Lemma wire_core fault b w : core (snd (wire fault b w)) = core w.
Proof. by destruct fault. Qed.


Lemma wire_attempts fault b w : attempts (snd (wire fault b w)) = attempts w.
Proof. by destruct fault. Qed.

(** What the trigger decides after its [await]. *)
Definition passes (id : Z) (r : Completion (option AudioBuffer)) (w : World)
  : option AudioBuffer :=
  match r with
  | Normal (Some b) =>
      if (stationId (sess w) =? id) && isPlayingMusic (sess w)
      then Some b else None
  | _ => None
  end.

Lemma resume_unfold p id r fault w :
  playPendingAnnouncement_resume p id r fault w =
  match r with
  | Throw e => (Normal tt, emit (ConsoleError "Error playing announcement") w)
  | Normal buffer =>
      match passes id r w with
      | Some b =>
          match wire fault b (record_attempt (p, id, b) w) with
          | (Normal a, w') => (Normal a, w')
          | (Throw e, w') =>
              (Normal tt, emit (ConsoleError "Error playing announcement") w')
          end
      | None => (Normal tt, w)
      end
  end.
Proof.
  unfold playPendingAnnouncement_resume, try_catch, bind, await, passes.
  destruct r as [[b|]|e]; cbn; [|by destruct (_ || _)|done].
  destruct (stationId (sess w) =? id), (isPlayingMusic (sess w)); cbn; try done.
Qed.

Lemma resume_core p id r fault w :
  core (snd (playPendingAnnouncement_resume p id r fault w)) = core w.
Proof.
  rewrite resume_unfold. destruct r as [buffer|e]; [|done].
  destruct (passes id _ w) as [b|]; [|done].
  pose proof (wire_core fault b (record_attempt (p, id, b) w)) as H.
  destruct (wire fault b _) as [[a|e] w']; exact H.
Qed.


Lemma resume_attempts p id r fault w :
  attempts (snd (playPendingAnnouncement_resume p id r fault w))
  = match passes id r w with
    | Some b => (p, id, b) :: attempts w
    | None => attempts w
    end.
Proof.
  rewrite resume_unfold. destruct r as [buffer|e]; [|done].
  destruct (passes id _ w) as [b|]; [|done].
  pose proof (wire_attempts fault b (record_attempt (p, id, b) w)) as H.
  destruct (wire fault b _) as [[a|e] w']; exact H.
Qed.

Lemma passes_core id r w w' : core w = core w' → passes id r w = passes id r w'.
Proof.
  unfold core, passes. intros H. inversion H as [[H1 H2 H3 H4 H5 H6 H7 H8]].
  by rewrite H3, H6.
Qed.

Lemma resume_all_core p r ws faults w :
  core (resume_all p r ws faults w) = core w.
Proof.
  revert faults w. induction ws as [|[q id] ws IH]; intros faults w; [done|].
  cbn. destruct (q =? p)%nat; [|apply IH].
  rewrite IH. apply resume_core.
Qed.


(** ** Closed forms of the timer helpers and the entry points *)

Definition clear_opt (o : option Z) (ts : list TimerEntry) : list TimerEntry :=
  match o with
  | Some h => List.filter (fun e => negb (t_id e =? h)) ts
  | None => ts
  end.

Lemma In_clear h ts e :
  In e (List.filter (fun e => negb (t_id e =? h)) ts) ↔ In e ts ∧ t_id e ≠ h.
Proof.
  rewrite filter_In, negb_true_iff, Z.eqb_neq. tauto.
Qed.

Lemma In_clear_opt o ts e :
  In e (clear_opt o ts) ↔ In e ts ∧ o ≠ Some (t_id e).
Proof.
  destruct o as [h|]; cbn; [rewrite In_clear|]; split; intros; destruct_and?;
    split_and?; try done; congruence.
Qed.

Lemma stopTimer_eq w :
  (∀ h, timer (sess w) = Some h → h ≠ 0) →
  stopTimer w
  = with_sess (set_timer None)
      (set_timers (clear_opt (timer (sess w)) (timers w)) w).
Proof.
  destruct w as [[tm db cs ip nm fr sid pd] ck ts nt ps ws au ef att].
  unfold stopTimer, JS.truthy_number; cbn. intros H.
  destruct tm as [h|]; [|done].
  specialize (H h eq_refl). apply Z.eqb_neq in H. by rewrite H.
Qed.

Lemma startTimer_eq w :
  (∀ h, timer (sess w) = Some h → h ≠ 0) →
  startTimer w
  = let ts := clear_opt (timer (sess w)) (timers w) in
    if isPlayingMusic (sess w) && JS.truthy_opt (currentStationName (sess w))
    then with_sess (set_timer (Some (nextTimer w)))
           (mkWorld (sess w) (clock w)
              (ts ++ [mkTimer (nextTimer w) (clock w + D_announce)
                              (Countdown (stationId (sess w)))])
              (nextTimer w + 1) (promises w) (waiters w) (audio w)
              (effects w) (attempts w))
    else with_sess (set_timer None) (set_timers ts w).
Proof.
  intros H. unfold startTimer. rewrite (stopTimer_eq w H).
  destruct w as [[tm db cs ip nm fr sid pd] ck ts nt ps ws au ef att]; cbn.
  by destruct (ip && JS.truthy_opt nm).
Qed.

Lemma setMusicPlaying_eq playing w :
  (∀ h, timer (sess w) = Some h → h ≠ 0) →
  setMusicPlaying playing w
  = let ts := clear_opt (timer (sess w)) (timers w) in
    if playing && JS.truthy_opt (currentStationName (sess w))
    then with_sess (fun s => set_timer (Some (nextTimer w))
                               (set_isPlayingMusic true s))
           (mkWorld (sess w) (clock w)
              (ts ++ [mkTimer (nextTimer w) (clock w + D_announce)
                              (Countdown (stationId (sess w)))])
              (nextTimer w + 1) (promises w) (waiters w) (audio w)
              (effects w) (attempts w))
    else if playing then with_sess (set_isPlayingMusic true) w
    else with_sess (fun s => set_timer None (set_isPlayingMusic false s))
           (set_timers ts w).
Proof.
  intros H. unfold setMusicPlaying.
  destruct playing; cbn [andb].
  - destruct (JS.truthy_opt (currentStationName (sess w))) eqn:Hn.
    + replace (JS.truthy_opt _) with true by (by destruct w as [[]]).
      rewrite startTimer_eq by (by destruct w as [[]]).
      destruct w as [[tm db cs ip nm fr sid pd] ck ts nt ps ws au ef att].
      cbn in *. by rewrite Hn.
    + replace (JS.truthy_opt _) with false by (by destruct w as [[]]). done.
  - rewrite stopTimer_eq by (by destruct w as [[]]).
    by destruct w as [[tm db cs ip nm fr sid pd] ck ts nt ps ws au ef att].
Qed.

Lemma onStationChange_eq stationName frequency w :
  (∀ h, timer (sess w) = Some h → h ≠ 0) →
  (∀ h, debounceTimer (sess w) = Some h → h ≠ 0) →
  JS.strict_eq (currentStationName (sess w)) stationName = false →
  onStationChange stationName frequency w
  = let s := sess w in
    let ts := clear_opt (debounceTimer s) (clear_opt (timer s) (timers w)) in
    let id := JS.incr (stationId s) in
    let nt := nextTimer w in
    if isPlayingMusic s && JS.truthy_string stationName
    then mkWorld
           (mkSession (Some nt) (Some (nt + 1)) (currentSource s) true
                      (Some stationName) (Some frequency) id None)
           (clock w)
           ((ts ++ [mkTimer nt (clock w + D_announce) (Countdown id)])
               ++ [mkTimer (nt + 1) (clock w + D_settle)
                            (Debounce stationName frequency)])
           (nt + 1 + 1) (promises w) (waiters w) (audio w) (effects w)
           (attempts w)
    else mkWorld
           (mkSession None (Some nt) (currentSource s) (isPlayingMusic s)
                      (Some stationName) (Some frequency) id None)
           (clock w)
           (ts ++ [mkTimer nt (clock w + D_settle)
                           (Debounce stationName frequency)])
           (nt + 1) (promises w) (waiters w) (audio w) (effects w)
           (attempts w).
Proof.
  intros Ht Hd Hne. unfold onStationChange. rewrite Hne.
  rewrite stopTimer_eq by (by destruct w as [[]]).
  destruct w as [[tm db cs ip nm fr sid pd] ck ts nt ps ws au ef att].
  cbn in *.
  assert (Hdb : match db with
                | Some h => JS.truthy_number h = true | None => True end).
  { destruct db as [h|]; [|done]. unfold JS.truthy_number.
    apply negb_true_iff, Z.eqb_neq. by apply Hd. }
  destruct db as [h|]; [rewrite Hdb|]; cbn.
  all: destruct ip; cbn; [|done].
  all: unfold startTimer, stopTimer; cbn.
  all: by destruct (JS.truthy_string stationName).
Qed.

(** ** The invariant is preserved by the two entry points *)

Lemma incr_ge n : n <= JS.incr n.
Proof. unfold JS.incr. destruct (n <? 2 ^ 53); lia. Qed.

Lemma incr_lt n : n < 2 ^ 53 → JS.incr n = n + 1.
Proof. unfold JS.incr. intros H. apply Z.ltb_lt in H. by rewrite H. Qed.

Lemma Inv_handles w :
  Inv w →
  (∀ h, timer (sess w) = Some h → h ≠ 0)
  ∧ (∀ h, debounceTimer (sess w) = Some h → h ≠ 0).
Proof.
  intros I; split; intros h H.
  - pose proof (inv_timer w I h H). lia.
  - pose proof (inv_debounce w I h H). lia.
Qed.

Lemma Inv_owner w e :
  Inv w → In e (timers w) →
  if is_Debounce (t_cb e)
  then debounceTimer (sess w) = Some (t_id e)
  else timer (sess w) = Some (t_id e).
Proof.
  intros I He. destruct (t_cb e) as [id|n f] eqn:Hcb; cbn.
  - by destruct (inv_countdown w I e id He Hcb).
  - by destruct (inv_settle w I e n f He Hcb).
Qed.

Lemma Inv_clear_both w :
  Inv w →
  clear_opt (debounceTimer (sess w)) (clear_opt (timer (sess w)) (timers w))
  = [].
Proof.
  intros I.
  destruct (clear_opt _ _) as [|e l] eqn:E; [done|exfalso].
  assert (He : In e (e :: l)) by by left.
  rewrite <- E in He. apply In_clear_opt in He as [He Hd].
  apply In_clear_opt in He as [He Ht].
  pose proof (Inv_owner w e I He) as Ho. by destruct (is_Debounce _).
Qed.

(** After [stopTimer] only the settle timer can still be armed. *)
Lemma Inv_clear_timer w e :
  Inv w → In e (clear_opt (timer (sess w)) (timers w)) →
  In e (timers w) ∧ is_Debounce (t_cb e) = true.
Proof.
  intros I He. apply In_clear_opt in He as [He Ht]. split; [done|].
  pose proof (Inv_owner w e I He) as Ho. by destruct (is_Debounce _).
Qed.

Lemma Inv_entry w e :
  Inv w → In e (timers w) →
  0 < t_id e < nextTimer w ∧ clock w <= t_due e
  ∧ match t_cb e with
    | Countdown id =>
        timer (sess w) = Some (t_id e) ∧ id = stationId (sess w)
        ∧ isPlayingMusic (sess w) = true
        ∧ JS.truthy_opt (currentStationName (sess w)) = true
    | Debounce n f =>
        debounceTimer (sess w) = Some (t_id e)
        ∧ currentStationName (sess w) = Some n
        ∧ currentFrequency (sess w) = Some f
        ∧ pendingBufferPromise (sess w) = None
    end.
Proof.
  intros I He. split_and?.
  - apply (inv_ids w I e He).
  - apply (inv_ids w I e He).
  - apply (inv_due w I e He).
  - destruct (t_cb e) as [id|n f] eqn:Hcb.
    + by apply (inv_countdown w I).
    + by apply (inv_settle w I).
Qed.

Ltac inv_cases :=
  repeat match goal with
    | H : _ ∨ _ |- _ => destruct H
    | H : False |- _ => destruct H
    | H : In _ (_ ++ _) |- _ => apply in_app_or in H
    | H : In _ [] |- _ => destruct H
    | H : In _ (_ :: _) |- _ => destruct H
    | H : Some _ = Some _ |- _ => injection H as <-
    | H : Countdown _ = Countdown _ |- _ => injection H as <-
    | H : Debounce _ _ = Debounce _ _ |- _ => injection H as <- <-
    | H : (_, _) = (_, _) |- _ => injection H as <- <-
    | H : _ ∧ _ |- _ => destruct H
    end.

Ltac inv_old I :=
  match goal with
  | H : In (_, _) (waiters ?w) |- _ => by apply (inv_waiters w I)
  | H : promises ?w !! _ = Some _ |- _ <= _ =>
      pose proof (inv_epoch w I _ _ H); lia
  | H : promises ?w !! ?p = Some ?G |- _ ≠ Rejected _ =>
      by apply (inv_fulfilled w I p G)
  end.

Ltac inv_finish I :=
  unfold D_announce, D_settle in *;
  inv_cases; subst; cbn in *; inv_cases; subst;
  split_and?; try done; try lia; try congruence; try inv_old I;
  try (intros [=]; lia).

Lemma Inv_onStationChange n f w : Inv w → Inv (onStationChange n f w).
Proof.
  intros I. destruct (Inv_handles w I) as [Ht Hd].
  destruct (JS.strict_eq (currentStationName (sess w)) n) eqn:Hne.
  { unfold onStationChange. by rewrite Hne. }
  rewrite onStationChange_eq by done. cbn zeta.
  rewrite (Inv_clear_both w I). cbn [app].
  pose proof (inv_next w I) as Hn.
  pose proof (incr_ge (stationId (sess w))) as Hi.
  destruct (isPlayingMusic (sess w) && JS.truthy_string n) eqn:Hp.
  - apply andb_true_iff in Hp as [Hp Hs].
    constructor; cbn; intros; inv_finish I.
  - constructor; cbn; intros; inv_finish I.
Qed.

Ltac old_entry I :=
  repeat match goal with
    | H : In ?e (clear_opt (timer (sess ?w)) (timers ?w)) |- _ =>
        let Hd := fresh "Hd" in
        apply (Inv_clear_timer w e I) in H as [H Hd]
    | H : In ?e (timers ?w) |- _ =>
        apply (Inv_entry w e I) in H as (? & ? & ?)
    end;
  repeat match goal with
    | H : t_cb ?e = _, H' : context [t_cb ?e] |- _ =>
        progress (rewrite H in H'; cbn in H')
    end.

Ltac old_session I :=
  try match goal with
    | H : timer (sess ?w) = Some ?h |- _ =>
        pose proof (inv_timer w I h H); pose proof (inv_distinct w I h H)
    end;
  try match goal with
    | H : debounceTimer (sess ?w) = Some ?h |- _ =>
        pose proof (inv_debounce w I h H)
    end;
  try match goal with
    | H : pendingBufferPromise (sess ?w) = Some ?p |- _ =>
        pose proof (inv_pending w I p H)
    end;
  try match goal with
    | |- debounceTimer (sess ?w) ≠ Some ?h =>
        let E := fresh in
        intros E; pose proof (inv_debounce w I h E)
    end.

Ltac inv_auto I :=
  intros; inv_cases; old_entry I; old_session I; inv_finish I.

Lemma Inv_setMusicPlaying playing w : Inv w → Inv (setMusicPlaying playing w).
Proof.
  intros I. destruct (Inv_handles w I) as [Ht Hd].
  rewrite setMusicPlaying_eq by done. cbn zeta.
  pose proof (inv_next w I) as Hn.
  destruct playing; cbn [andb].
  - destruct (JS.truthy_opt (currentStationName (sess w))) eqn:Hs.
    + constructor; cbn; inv_auto I.
    + constructor; cbn; inv_auto I.
  - constructor; cbn; inv_auto I.
Qed.

(** ** Footprint of the generation pipeline *)

(** The body of [generateAnnouncement] only talks to the services and the
    console, and its [try]/[catch] turns every throw into [return null]. *)
Lemma generation_body id k d body w :
  generateAnnouncement_resume id k d = Some body →
  ∃ nx, fst (body w) = Normal nx
        ∧ sess (snd (body w)) = sess w
        ∧ core (snd (body w)) = core w
        ∧ audio (snd (body w)) = audio w
        ∧ attempts (snd (body w)) = attempts w
        ∧ gen_requests (snd (body w)) = gen_requests w.
Proof.
  destruct k, d as [r|r|r]; cbn; intros H; try discriminate H;
    injection H as <-;
    unfold try_catch, after_script, after_tts, after_decode, bind, await.
  - destruct r as [resp|e]; [|by eexists].
    destruct (negb (stationId (sess w) =? id)); [by eexists|].
    destruct (JS.trim <$> text resp) as [script|]; [|by eexists].
    destruct (negb (JS.truthy_string script)); by eexists.
  - destruct r as [resp|e]; [|by eexists].
    destruct (negb (stationId (sess w) =? id)); [by eexists|].
    destruct (audioData_of resp) as [a|]; [|by eexists].
    destruct (negb (JS.truthy_string a)); by eexists.
  - destruct r as [b|e]; by eexists.
Qed.

Lemma deliver_unfold p d faults w w' :
  deliver p d faults w = Some w' →
  ∃ id station freq k body nx,
    promises w !! p = Some (mkGen id station freq (Pending k))
    ∧ generateAnnouncement_resume id k d = Some body
    ∧ fst (body w) = Normal nx
    ∧ let w1 := snd (body w) in
      let w2 := set_promises
                  (<[p := mkGen id station freq (promise_of (Normal nx))]>
                     (promises w1)) w1 in
      w' = match nx with
           | Suspend _ => w2
           | Return v =>
               resume_all p (Normal v) (waiters w2) faults
                 (set_waiters
                    (List.filter (fun x => negb (fst x =? p)%nat) (waiters w2))
                    w2)
           end.
Proof.
  unfold deliver. destruct (promises w !! p) as [[id station freq [k| |]]|];
    try done.
  destruct (generateAnnouncement_resume id k d) as [body|] eqn:Hb; [|done].
  destruct (generation_body id k d body w Hb) as (nx & Hnx & _).
  destruct (body w) as [c w1] eqn:Hbw; cbn in *. subst c.
  intros Hw'. exists id, station, freq, k, body, nx. rewrite Hbw.
  split_and?; try done. destruct nx; cbn in *; congruence.
Qed.

(** ** The invariant is preserved by every step *)

Lemma find_timer_Some h w e :
  find_timer h w = Some e → In e (timers w) ∧ t_id e = h.
Proof.
  unfold find_timer. intros H. apply find_some in H as [H1 H2].
  split; [done|]. by apply Z.eqb_eq.
Qed.

Ltac inv_same I :=
  first [ by apply (inv_next _ I) | by apply (inv_ids _ I)
        | by apply (inv_due _ I) | by apply (inv_timer _ I)
        | by apply (inv_debounce _ I) | by apply (inv_distinct _ I)
        | by eapply (inv_countdown _ I) | by eapply (inv_settle _ I)
        | by apply (inv_pending _ I) | by apply (inv_waiters _ I)
        | by eapply (inv_epoch _ I) | by eapply (inv_fulfilled _ I) ].

Lemma Inv_clearTimeout h w : Inv w → Inv (clearTimeout h w).
Proof.
  intros I. constructor; cbn; intros;
    repeat match goal with
      | H : In _ (List.filter _ _) |- _ => apply In_clear in H as [H ?]
      end; inv_same I.
Qed.

Lemma Inv_countdown_fired myId fault w : Inv w → Inv (countdown_fired myId fault w).
Proof.
  intros I. unfold countdown_fired, playPendingAnnouncement_begin.
  destruct (stationId (sess w) =? myId) eqn:Hid; cbn; [|done].
  apply Z.eqb_eq in Hid.
  destruct (isPlayingMusic (sess w)); cbn; [|done].
  destruct (pendingBufferPromise (sess w)) as [p|] eqn:Hp; [|done].
  destruct (promises w !! p) as [G|] eqn:HG; [|done].
  destruct (settled (g_state G)) as [r|] eqn:Hs.
  { eapply Inv_core; [|exact I]. symmetry. apply resume_core. }
  destruct (inv_pending w I p Hp) as (G' & HG' & Hg & _).
  assert (G' = G) as -> by congruence.
  constructor; cbn; intros; try inv_same I.
  apply in_app_or in H as [H|[[= <- <-]|[]]]; [by apply (inv_waiters w I)|].
  destruct (g_state G) as [k| |] eqn:Hst; try done.
  exists G, k. split_and?; congruence.
Qed.

Lemma Inv_debounce_fired n f w :
  Inv w →
  (∀ e, In e (timers w) → is_Debounce (t_cb e) = false) →
  currentStationName (sess w) = Some n →
  currentFrequency (sess w) = Some f →
  Inv (debounce_fired n f w).
Proof.
  intros I Hnd Hn Hf. constructor; cbn; intros; try inv_same I.
  - apply Hnd in H. by rewrite H0 in H.
  - injection H as <-. eexists. split; [by apply list_lookup_middle|done].
  - destruct (inv_waiters w I p id H) as (G & k & HG & ? & ?).
    exists G, k. split_and?; try done. by apply lookup_app_l_Some.
  - apply lookup_app_Some in H as [H|[_ H]].
    + by apply (inv_epoch w I p).
    + destruct (p - length (promises w))%nat; [|done].
      injection H as <-. cbn. lia.
  - apply lookup_app_Some in H as [H|[_ H]].
    + by apply (inv_fulfilled w I p).
    + destruct (p - length (promises w))%nat; [|done].
      by injection H as <-.
Qed.

Lemma Inv_source_ended s w w' : source_ended s w = Some w' → Inv w → Inv w'.
Proof.
  unfold source_ended. destruct (bool_decide _); [|done].
  cbn. destruct (List.find _ _) as [[s' g]|].
  - intros [= <-]. apply Inv_core.
    by destruct (bool_decide (currentSource (sess w) = Some s)).
  - intros [= <-]. by apply Inv_core.
Qed.

Lemma In_not_on p (ws : list (nat * Z)) x :
  In x (List.filter (fun x => negb (fst x =? p)%nat) ws) ↔ In x ws ∧ fst x ≠ p.
Proof.
  rewrite filter_In, negb_true_iff, Nat.eqb_neq. tauto.
Qed.

Lemma Inv_deliver p d faults w w' : deliver p d faults w = Some w' → Inv w → Inv w'.
Proof.
  intros H I.
  apply deliver_unfold in H
    as (id & station & freq & k & body & nx & HG & Hb & Hnx & ->).
  destruct (generation_body id k d body w Hb) as (nx' & _ & _ & Hc & _).
  set (w1 := snd (body w)) in *.
  assert (I1 : Inv w1) by (by eapply Inv_core; [symmetry; exact Hc|]).
  assert (HG1 : promises w1 !! p = Some (mkGen id station freq (Pending k))).
  { unfold core in Hc. inversion Hc. congruence. }
  clearbody w1. clear Hc Hnx nx' Hb body I HG w.
  cbn zeta.
  assert (Hins : ∀ q G st,
             <[p := mkGen id station freq st]> (promises w1) !! q = Some G →
             ∃ G0, promises w1 !! q = Some G0 ∧ g_id G = g_id G0
                   ∧ g_station G = g_station G0 ∧ g_freq G = g_freq G0
                   ∧ (q ≠ p → G = G0) ∧ (q = p → g_state G = st)).
  { intros q G st HG. destruct (decide (q = p)) as [->|Hne].
    - rewrite list_lookup_insert_eq in HG by (by eapply lookup_lt_Some).
      injection HG as <-. eexists; split_and?; try done.
    - rewrite list_lookup_insert_ne in HG by done.
      exists G; split_and?; done. }
  assert (Hins' : ∀ q G st, q ≠ p → promises w1 !! q = Some G →
             <[p := mkGen id station freq st]> (promises w1) !! q = Some G).
  { intros. by rewrite list_lookup_insert_ne. }
  destruct nx as [k'|v]; cbn.
  - constructor; cbn; intros; try inv_same I1.
    + destruct (inv_pending w1 I1 p0 H) as (G & HG & Hg1 & Hg2 & Hg3).
      destruct (decide (p0 = p)) as [->|Hne].
      * rewrite list_lookup_insert_eq by (by eapply lookup_lt_Some).
        eexists; split; [done|]. cbn.
        assert (G = mkGen id station freq (Pending k)) as -> by congruence.
        done.
      * exists G. by rewrite list_lookup_insert_ne.
    + destruct (inv_waiters w1 I1 p0 id0 H) as (G & k0 & HG & Hg1 & Hg2).
      destruct (decide (p0 = p)) as [->|Hne].
      * rewrite list_lookup_insert_eq by (by eapply lookup_lt_Some).
        eexists _, k'; split; [done|]. cbn.
        assert (G = mkGen id station freq (Pending k)) as -> by congruence.
        done.
      * exists G, k0. by rewrite list_lookup_insert_ne.
    + apply Hins in H as (G0 & HG0 & -> & _).
      by apply (inv_epoch w1 I1 p0).
    + apply Hins in H as (G0 & HG0 & _ & _ & _ & Hne & Heq).
      destruct (decide (p0 = p)) as [->|Hn].
      * by rewrite Heq.
      * rewrite Hne by done. by apply (inv_fulfilled w1 I1 p0).
  - eapply Inv_core; [symmetry; apply resume_all_core|].
    constructor; cbn; intros; try inv_same I1.
    + destruct (inv_pending w1 I1 p0 H) as (G & HG & Hg1 & Hg2 & Hg3).
      destruct (decide (p0 = p)) as [->|Hne].
      * rewrite list_lookup_insert_eq by (by eapply lookup_lt_Some).
        eexists; split; [done|]. cbn.
        assert (G = mkGen id station freq (Pending k)) as -> by congruence.
        done.
      * exists G. by rewrite list_lookup_insert_ne.
    + apply In_not_on in H as [H Hne]. cbn in Hne.
      destruct (inv_waiters w1 I1 p0 id0 H) as (G & k0 & HG & Hg1 & Hg2).
      exists G, k0. by rewrite list_lookup_insert_ne.
    + apply Hins in H as (G0 & HG0 & -> & _).
      by apply (inv_epoch w1 I1 p0).
    + apply Hins in H as (G0 & HG0 & _ & _ & _ & Hne & Heq).
      destruct (decide (p0 = p)) as [->|Hn].
      * by rewrite Heq.
      * rewrite Hne by done. by apply (inv_fulfilled w1 I1 p0).
Qed.

Lemma Inv_step l w w' : step l w = Some w' → Inv w → Inv w'.
Proof.
  destruct l as [n f|playing|d|h fault|p d faults|s]; cbn.
  - intros [= <-]. apply Inv_onStationChange.
  - intros [= <-]. apply Inv_setMusicPlaying.
  - destruct (0 <? d) eqn:Hd; [|done]. cbn.
    destruct (forallb _ _) eqn:Hall; [|done]. intros [= <-] I.
    apply Z.ltb_lt in Hd.
    constructor; cbn; intros; try inv_same I.
    rewrite forallb_forall in Hall. apply Hall in H. lia.
  - destruct (find_timer h w) as [e|] eqn:He; [|done].
    destruct (t_due e <=? clock w); [|done]. intros [= <-] I.
    apply find_timer_Some in He as [He <-].
    pose proof (Inv_clearTimeout (t_id e) w I) as I1.
    destruct (t_cb e) as [myId|n f] eqn:Hcb; cbn [run_callback].
    + by apply Inv_countdown_fired.
    + destruct (inv_settle w I e n f He Hcb) as (Hh & Hn & Hf & _).
      apply Inv_debounce_fired; [exact I1| |done|done].
      intros e' He'. cbn in He'. apply In_clear in He' as [He' Hne].
      pose proof (Inv_owner w e' I He') as Ho.
      destruct (is_Debounce (t_cb e')); [|done]. congruence.
  - apply Inv_deliver.
  - apply Inv_source_ended.
Qed.

Lemma Inv_exec ls w w' : exec ls w = Some w' → Inv w → Inv w'.
Proof.
  revert w. induction ls as [|l ls IH]; cbn; intros w.
  - by intros [= <-].
  - destruct (step l w) as [w1|] eqn:Hs; [|done].
    intros H I. apply (IH w1 H). by eapply Inv_step.
Qed.

Lemma reachable_Inv w : reachable w → Inv w.
Proof. intros [ls H]. eapply Inv_exec; [exact H|apply Inv_init]. Qed.

Lemma exec_app ls1 ls2 w :
  exec (ls1 ++ ls2) w = match exec ls1 w with
                        | Some w1 => exec ls2 w1
                        | None => None
                        end.
Proof.
  revert w. induction ls1 as [|l ls IH]; cbn; intros w; [done|].
  destruct (step l w); [apply IH|done].
Qed.

Lemma reachable_exec ls w w' : reachable w → exec ls w = Some w' → reachable w'.
Proof.
  intros [ls0 H0] H. exists (ls0 ++ ls)%list. by rewrite exec_app, H0.
Qed.

(** * The claims *)

(** C3 (idempotent retune).  In a state whose tuned station is [name],
    [onStationChange(name, freq)] changes nothing at all: the epoch, every
    field of the session, the table of armed timers and the rest of the
    world stay as they were, whatever [freq] is. *)
Theorem C3_idempotent_retune (w : World) (name freq : string) :
  currentStationName (sess w) = Some name →
  onStationChange name freq w = w
  ∧ step (StationChange name freq) w = Some w.
Proof.
  intros H. assert (E : onStationChange name freq w = w).
  { unfold onStationChange. rewrite H. cbn. by rewrite String.eqb_refl. }
  split; [done|]. cbn. by rewrite E.
Qed.

Lemma C3_idempotent_retune_witness :
  let w := onStationChange "Bossa Nova" "88.0" init in
  currentStationName (sess w) = Some "Bossa Nova"
  ∧ onStationChange "Bossa Nova" "90.5" w = w.
Proof.
  split; [reflexivity|].
  apply (C3_idempotent_retune (onStationChange "Bossa Nova" "88.0" init)
           "Bossa Nova" "90.5").
  reflexivity.
Defined.

(** * Further properties of the announcer *)

Lemma source_ended_unfold s w w' :
  source_ended s w = Some w' →
  In s (started (audio w))
  ∧ started (audio w')
    = List.filter (fun x => negb (x =? s)%nat) (started (audio w))
  ∧ onended (audio w') = onended (audio w)
  ∧ core w' = core w
  ∧ effects w' = effects w ∧ attempts w' = attempts w
  ∧ match List.find (fun h => (fst h =? s)%nat) (onended (audio w)) with
    | Some (_, g) =>
        edges (audio w')
        = List.filter (fun e => negb (bool_decide (fst e = GainNode g)))
            (List.filter (fun e => negb (bool_decide (fst e = SourceNode s)))
               (edges (audio w)))
        ∧ currentSource (sess w')
          = if bool_decide (currentSource (sess w) = Some s)
            then None else currentSource (sess w)
    | None => edges (audio w') = edges (audio w)
              ∧ currentSource (sess w') = currentSource (sess w)
    end.
Proof.
  unfold source_ended. destruct (bool_decide _) eqn:Hin; [|done].
  apply bool_decide_eq_true in Hin. apply list_elem_of_In in Hin.
  cbn. destruct (List.find _ _) as [[s' g]|]; intros [= <-].
  - by destruct (bool_decide (currentSource (sess w) = Some s)).
  - done.
Qed.

(** ** What the two entry points leave alone *)

Ltac open_world w :=
  destruct w as [[tm db cs ip nm fr sid pd] ck ts nt ps ws au ef att].

Ltac timer_cases :=
  unfold onStationChange, setMusicPlaying, startTimer, stopTimer, setTimeout,
    clearTimeout; cbn;
  repeat match goal with
    | |- context [match ?o with Some _ => _ | None => _ end] =>
        destruct o; cbn
    | |- context [if ?b then _ else _] => destruct b; cbn
    end.

Lemma rest_setMusicPlaying playing w : rest (setMusicPlaying playing w) = rest w.
Proof. open_world w. destruct playing; timer_cases; reflexivity. Qed.

Lemma rest_onStationChange n f w : rest (onStationChange n f w) = rest w.
Proof.
  open_world w. unfold onStationChange; cbn [sess currentStationName].
  destruct (JS.strict_eq nm n); [done|]. timer_cases; reflexivity.
Qed.

Lemma rest_fields w w' :
  rest w' = rest w →
  clock w' = clock w ∧ promises w' = promises w ∧ waiters w' = waiters w
  ∧ audio w' = audio w ∧ effects w' = effects w ∧ attempts w' = attempts w
  ∧ currentSource (sess w') = currentSource (sess w).
Proof. unfold rest. intros H. inversion H. by split_and?. Qed.

Lemma core_fields w w' :
  core w' = core w →
  timer (sess w') = timer (sess w)
  ∧ debounceTimer (sess w') = debounceTimer (sess w)
  ∧ isPlayingMusic (sess w') = isPlayingMusic (sess w)
  ∧ currentStationName (sess w') = currentStationName (sess w)
  ∧ currentFrequency (sess w') = currentFrequency (sess w)
  ∧ stationId (sess w') = stationId (sess w)
  ∧ pendingBufferPromise (sess w') = pendingBufferPromise (sess w)
  ∧ clock w' = clock w ∧ timers w' = timers w ∧ nextTimer w' = nextTimer w
  ∧ promises w' = promises w ∧ waiters w' = waiters w.
Proof. unfold core. intros H. inversion H. by split_and?. Qed.

(** ** Epochs and hand-overs along a run *)

Lemma stationId_onStationChange n f w :
  stationId (sess (onStationChange n f w))
  = if JS.strict_eq (currentStationName (sess w)) n
    then stationId (sess w) else JS.incr (stationId (sess w)).
Proof.
  open_world w. unfold onStationChange; cbn [sess currentStationName].
  destruct (JS.strict_eq nm n); [done|]. timer_cases; reflexivity.
Qed.

Lemma stationId_setMusicPlaying playing w :
  stationId (sess (setMusicPlaying playing w)) = stationId (sess w).
Proof. open_world w. destruct playing; timer_cases; reflexivity. Qed.

Lemma countdown_fired_core myId fault w :
  core (countdown_fired myId fault w) = core w
  ∨ ∃ p, pendingBufferPromise (sess w) = Some p
         ∧ countdown_fired myId fault w
           = set_waiters (waiters w ++ [(p, myId)]) w.
Proof.
  unfold countdown_fired, playPendingAnnouncement_begin.
  destruct (_ || _); [by left|].
  destruct (pendingBufferPromise (sess w)) as [p|]; [|by left].
  destruct (promises w !! p) as [G|]; [|by left].
  destruct (settled (g_state G)) as [r|].
  - left. apply resume_core.
  - right. by exists p.
Qed.

Lemma resume_all_stationId p r ws faults w :
  stationId (sess (resume_all p r ws faults w)) = stationId (sess w).
Proof.
  by destruct (core_fields _ _ (resume_all_core p r ws faults w))
    as (_&_&_&_&_& -> &_).
Qed.

(** The epoch never decreases. *)
Lemma step_stationId l w w' :
  step l w = Some w' → stationId (sess w) <= stationId (sess w').
Proof.
  destruct l as [n f|playing|d|h fault|p d faults|s]; cbn.
  - intros [= <-]. rewrite stationId_onStationChange.
    destruct (JS.strict_eq _ n); [lia|apply incr_ge].
  - intros [= <-]. rewrite stationId_setMusicPlaying. lia.
  - destruct (_ && _); [|done]. intros [= <-]. cbn. lia.
  - destruct (find_timer h w) as [e|]; [|done].
    destruct (t_due e <=? clock w); [|done]. intros [= <-].
    destruct (t_cb e) as [myId|n f]; cbn [run_callback]; [|cbn; lia].
    destruct (countdown_fired_core myId fault (clearTimeout h w))
      as [(_&_&_&_&_& -> &_)%core_fields|(p & _ & ->)]; cbn; lia.
  - intros H. apply deliver_unfold in H
      as (id & station & freq & k & body & nx & HG & Hb & Hnx & ->).
    destruct (generation_body id k d body w Hb) as (_ & _ & Hs & _).
    cbn zeta. destruct nx.
    + cbn. rewrite Hs. lia.
    + rewrite resume_all_stationId.
      cbn. rewrite Hs. lia.
  - intros (_ & _ & _ & (_&_&_&_&_& -> &_)%core_fields & _)%source_ended_unfold.
    lia.
Qed.


(** ** The epoch counter *)

Lemma exec_stationId ls w w' :
  exec ls w = Some w' → stationId (sess w) <= stationId (sess w').
Proof.
  revert w. induction ls as [|l ls IH]; cbn; intros w.
  - intros [= <-]. lia.
  - destruct (step l w) as [w1|] eqn:Hs; [|done]. intros H.
    pose proof (step_stationId l w w1 Hs). pose proof (IH w1 H). lia.
Qed.

(** X1.  [stationId] never decreases along an execution, whatever is
    delivered: station changes, playback notifications, timers, service
    responses and playback ends. *)
Theorem epoch_never_decreases (ls : list Label) (w w' : World) :
  exec ls w = Some w' → stationId (sess w) <= stationId (sess w').
Proof. apply exec_stationId. Qed.

Lemma epoch_never_decreases_witness :
  stationId (sess init)
  <= stationId (sess (after [StationChange "Funk" "95.5"; Elapse 100;
                             StationChange "Dubstep" "104.5"])).
Proof.
  apply (epoch_never_decreases
           [StationChange "Funk" "95.5"; Elapse 100;
            StationChange "Dubstep" "104.5"]).
  vm_compute. reflexivity.
Defined.

(** X2.  A station change to a name other than the tuned one, below the
    2^53 limit of the counter, advances the epoch by exactly one; it leaves
    every pipeline created so far with an older epoch, clears
    [pendingBufferPromise], and leaves no countdown of an older epoch
    armed. *)
Theorem retune_invalidates (w : World) (name freq : string) :
  reachable w →
  currentStationName (sess w) ≠ Some name →
  stationId (sess w) < 2 ^ 53 →
  let w' := onStationChange name freq w in
  stationId (sess w') = stationId (sess w) + 1
  ∧ pendingBufferPromise (sess w') = None
  ∧ (∀ p G, promises w' !! p = Some G → g_id G < stationId (sess w'))
  ∧ (∀ e id, In e (timers w') → t_cb e = Countdown id →
             id = stationId (sess w')).
Proof.
  intros Hr Hne Hlt. pose proof (reachable_Inv w Hr) as I. cbn zeta.
  assert (Hs : JS.strict_eq (currentStationName (sess w)) name = false).
  { unfold JS.strict_eq. destruct (currentStationName (sess w)) as [s|]; [|done].
    apply String.eqb_neq. congruence. }
  pose proof (Inv_onStationChange name freq w I) as I'.
  rewrite stationId_onStationChange, Hs, incr_lt by done.
  destruct (rest_fields _ _ (rest_onStationChange name freq w))
    as (_ & Hps & _).
  split_and?.
  - done.
  - destruct (Inv_handles w I) as [Ht Hd].
    rewrite onStationChange_eq by done. cbn zeta.
    by destruct (_ && _).
  - intros p G HG. rewrite Hps in HG.
    pose proof (inv_epoch w I p G HG). lia.
  - intros e id He Hcb.
    destruct (inv_countdown _ I' e id He Hcb) as (_ & -> & _).
    by rewrite stationId_onStationChange, Hs, incr_lt.
Qed.

Lemma retune_invalidates_witness :
  let w := after [StationChange "Funk" "95.5"; Elapse 800;
                  TimerFire 1 NoFault] in
  stationId (sess (onStationChange "Dubstep" "104.5" w))
  = stationId (sess w) + 1.
Proof.
  cbn zeta.
  apply (retune_invalidates
           (after [StationChange "Funk" "95.5"; Elapse 800;
                   TimerFire 1 NoFault]) "Dubstep" "104.5").
  - exists [StationChange "Funk" "95.5"; Elapse 800; TimerFire 1 NoFault].
    vm_compute. reflexivity.
  - vm_compute. discriminate.
  - vm_compute. reflexivity.
Defined.

(** ** The two timer slots *)

Lemma filter_filter_le {A} (P Q : A → bool) (l : list A) :
  (length (List.filter P (List.filter Q l)) <= length (List.filter P l))%nat.
Proof.
  induction l as [|x l IH]; cbn; [done|].
  destruct (Q x) eqn:HQ; cbn; destruct (P x) eqn:HP; cbn; lia.
Qed.

Lemma filter_none {A} (P : A → bool) (l : list A) :
  (∀ x, In x l → P x = false) → List.filter P l = [].
Proof.
  induction l as [|x l IH]; cbn; intros H; [done|].
  rewrite (H x) by (by left). apply IH. intros y Hy. apply H. by right.
Qed.

(** The armed timers after a step that is not one of the two entry points:
    at most one entry was removed, none was added. *)
Lemma step_timers l w w' :
  step l w = Some w' →
  match l with
  | StationChange _ _ | SetMusicPlaying _ => True
  | TimerFire h _ =>
      timers w' = List.filter (fun e => negb (t_id e =? h)) (timers w)
  | _ => timers w' = timers w
  end.
Proof.
  destruct l as [n f|playing|d|h fault|p d faults|s]; cbn; try done.
  - destruct (_ && _); [|done]. by intros [= <-].
  - destruct (find_timer h w) as [e|]; [|done].
    destruct (t_due e <=? clock w); [|done]. intros [= <-].
    destruct (t_cb e) as [myId|n f]; cbn [run_callback]; [|done].
    destruct (countdown_fired_core myId fault (clearTimeout h w))
      as [Hc|(p & _ & ->)]; [|done].
    apply core_fields in Hc. by destruct_and!.
  - intros H. apply deliver_unfold in H
      as (id & station & freq & k & body & nx & HG & Hb & Hnx & ->).
    destruct (generation_body id k d body w Hb) as (_ & _ & _ & Hc & _).
    apply core_fields in Hc. destruct_and!.
    cbn zeta. destruct nx; [done|].
    match goal with
    | |- timers (resume_all ?p ?r ?ws ?fs ?w0) = _ =>
        destruct (core_fields _ _ (resume_all_core p r ws fs w0))
          as (_&_&_&_&_&_&_&_& -> &_)
    end. done.
  - intros (_ & _ & _ & Hc & _)%source_ended_unfold.
    apply core_fields in Hc. by destruct_and!.
Qed.

Lemma slots_step l w w' :
  Inv w → step l w = Some w' →
  (length (countdowns w) <= 1)%nat ∧ (length (settles w) <= 1)%nat →
  (length (countdowns w') <= 1)%nat ∧ (length (settles w') <= 1)%nat.
Proof.
  intros I Hs [Hc Hd]. pose proof (step_timers l w w' Hs) as Ht.
  destruct (Inv_handles w I) as [Hth Hdh].
  unfold countdowns, settles in *.
  destruct l as [n f|playing|d|h fault|p d faults|s]; cbn in Hs;
    try (rewrite Ht; done).
  - injection Hs as <-.
    destruct (JS.strict_eq (currentStationName (sess w)) n) eqn:Hne.
    { unfold onStationChange. by rewrite Hne. }
    rewrite onStationChange_eq by done. cbn zeta.
    rewrite (Inv_clear_both w I).
    destruct (_ && _); cbn; lia.
  - injection Hs as <-. rewrite setMusicPlaying_eq by done. cbn zeta.
    assert (Hcd : List.filter (fun e => negb (is_Debounce (t_cb e)))
                    (clear_opt (timer (sess w)) (timers w)) = []).
    { apply filter_none. intros e He.
      apply (Inv_clear_timer w e I) in He as [_ ->]. done. }
    assert (Hdb : (length (List.filter (fun e => is_Debounce (t_cb e))
                     (clear_opt (timer (sess w)) (timers w))) <= 1)%nat).
    { destruct (timer (sess w)) as [h|]; cbn; [|done].
      etrans; [apply filter_filter_le|done]. }
    destruct playing; cbn [andb].
    + destruct (JS.truthy_opt _); cbn [timers with_sess]; [|done].
      rewrite !List.filter_app, Hcd, !length_app. cbn. lia.
    + cbn [timers with_sess set_timers]. rewrite Hcd. cbn. lia.
  - rewrite Ht. split; (etrans; [apply filter_filter_le|done]).
Qed.

Lemma slots_reachable w :
  reachable w →
  (length (countdowns w) <= 1)%nat ∧ (length (settles w) <= 1)%nat.
Proof.
  intros [ls H].
  assert (H0 : (length (countdowns init) <= 1)%nat
               ∧ (length (settles init) <= 1)%nat) by (cbn; lia).
  pose proof Inv_init as I0.
  revert H H0 I0. generalize init. induction ls as [|l ls IH]; cbn; intros w0.
  - by intros [= <-].
  - destruct (step l w0) as [w1|] eqn:Hs; [|done]. intros H H0 I0.
    apply (IH w1 H); [by eapply slots_step|by eapply Inv_step].
Qed.

(** X3.  In every reachable world at most one countdown timeout and at most
    one settle timeout are armed; an armed countdown is the one
    [this.timer] holds and an armed settle timeout the one
    [this.debounceTimer] holds, and both handles are positive, so the
    truthiness tests of lines 63 and 78 never skip a live timer. *)
Theorem one_timer_per_slot (w : World) :
  reachable w →
  (length (countdowns w) <= 1)%nat
  ∧ (length (settles w) <= 1)%nat
  ∧ (∀ e, In e (countdowns w) →
          timer (sess w) = Some (t_id e) ∧ JS.truthy_number (t_id e) = true)
  ∧ (∀ e, In e (settles w) →
          debounceTimer (sess w) = Some (t_id e)
          ∧ JS.truthy_number (t_id e) = true).
Proof.
  intros Hr. pose proof (reachable_Inv w Hr) as I.
  destruct (slots_reachable w Hr) as [Hc Hd].
  split_and?; try done.
  - intros e [He Hk]%filter_In.
    pose proof (Inv_owner w e I He) as Ho.
    pose proof (inv_ids w I e He).
    destruct (is_Debounce (t_cb e)); [done|]. split; [done|].
    unfold JS.truthy_number. apply negb_true_iff, Z.eqb_neq. lia.
  - intros e [He Hk]%filter_In.
    pose proof (Inv_owner w e I He) as Ho.
    pose proof (inv_ids w I e He).
    rewrite Hk in Ho. split; [done|].
    unfold JS.truthy_number. apply negb_true_iff, Z.eqb_neq. lia.
Qed.

Lemma one_timer_per_slot_witness :
  let w := after [StationChange "Funk" "95.5"; SetMusicPlaying true;
                  SetMusicPlaying true; StationChange "Dubstep" "104.5"] in
  (length (countdowns w) <= 1)%nat ∧ (length (settles w) <= 1)%nat.
Proof.
  cbn zeta.
  refine (let H := one_timer_per_slot
            (after [StationChange "Funk" "95.5"; SetMusicPlaying true;
                    SetMusicPlaying true; StationChange "Dubstep" "104.5"]) _
          in conj (proj1 H) (proj1 (proj2 H))).
  exists [StationChange "Funk" "95.5"; SetMusicPlaying true;
          SetMusicPlaying true; StationChange "Dubstep" "104.5"].
  vm_compute. reflexivity.
Defined.

(** ** What is stored and armed belongs to the tuned station *)

(** X4.  Whenever [pendingBufferPromise] is set, it is the promise of a
    pipeline created for the current epoch, station name and frequency, and
    no settle timeout is armed any more. *)
Theorem pending_is_current (w : World) (p : nat) :
  reachable w →
  pendingBufferPromise (sess w) = Some p →
  settles w = []
  ∧ ∃ G, promises w !! p = Some G
         ∧ g_id G = stationId (sess w)
         ∧ currentStationName (sess w) = Some (g_station G)
         ∧ currentFrequency (sess w) = Some (g_freq G).
Proof.
  intros Hr Hp. pose proof (reachable_Inv w Hr) as I. split.
  - apply filter_none. intros e He.
    destruct (t_cb e) as [id|n f] eqn:Hcb; [done|].
    destruct (inv_settle w I e n f He Hcb) as (_ & _ & _ & Hnone). congruence.
  - by apply (inv_pending w I).
Qed.

Lemma pending_is_current_witness :
  let w := after [StationChange "Funk" "95.5"; Elapse 800;
                  TimerFire 1 NoFault] in
  settles w = []
  ∧ ∃ G, promises w !! 0%nat = Some G
         ∧ g_id G = stationId (sess w)
         ∧ currentStationName (sess w) = Some (g_station G)
         ∧ currentFrequency (sess w) = Some (g_freq G).
Proof.
  cbn zeta.
  apply (pending_is_current
           (after [StationChange "Funk" "95.5"; Elapse 800;
                   TimerFire 1 NoFault]) 0%nat).
  - exists [StationChange "Funk" "95.5"; Elapse 800; TimerFire 1 NoFault].
    vm_compute. reflexivity.
  - vm_compute. reflexivity.
Defined.

Lemma find_timer_In e w :
  In e (timers w) → ∃ e', find_timer (t_id e) w = Some e' ∧ In e' (timers w)
                          ∧ t_id e' = t_id e.
Proof.
  intros He. destruct (find_timer (t_id e) w) as [e'|] eqn:Hf.
  - exists e'. split; [done|]. by apply find_timer_Some.
  - unfold find_timer in Hf. eapply find_none in Hf; [|exact He].
    cbn in Hf. by rewrite Z.eqb_refl in Hf.
Qed.

(** Two armed entries with the same handle have the same closure kind and,
    for settle timeouts, the same closure. *)
Lemma same_handle_Debounce w e e' n f :
  Inv w → In e (timers w) → In e' (timers w) → t_id e' = t_id e →
  t_cb e = Debounce n f → t_cb e' = Debounce n f.
Proof.
  intros I He He' Hid Hcb.
  destruct (inv_settle w I e n f He Hcb) as (Hd & Hn & Hf & _).
  destruct (t_cb e') as [id|n' f'] eqn:Hcb'.
  - destruct (inv_countdown w I e' id He' Hcb') as (Ht & _).
    exfalso. apply (inv_distinct w I _ Ht). congruence.
  - destruct (inv_settle w I e' n' f' He' Hcb') as (_ & Hn' & Hf' & _).
    congruence.
Qed.

Lemma same_handle_Countdown w e e' id :
  Inv w → In e (timers w) → In e' (timers w) → t_id e' = t_id e →
  t_cb e = Countdown id → t_cb e' = Countdown id.
Proof.
  intros I He He' Hid Hcb.
  destruct (inv_countdown w I e id He Hcb) as (Ht & -> & _).
  destruct (t_cb e') as [id'|n' f'] eqn:Hcb'.
  - by destruct (inv_countdown w I e' id' He' Hcb') as (_ & -> & _).
  - destruct (inv_settle w I e' n' f' He' Hcb') as (Hd & _).
    exfalso. apply (inv_distinct w I _ Ht). congruence.
Qed.

(** X5.  An armed countdown was armed for the current epoch, while music is
    playing and a station with a non-empty name is tuned.  So when it
    fires, the first guard of [playPendingAnnouncement] (line 154) lets it
    through: the trigger goes on to [pendingBufferPromise], and stops
    before the [await] only if that is null. *)
Theorem armed_countdown_is_current
    (w : World) (e : TimerEntry) (id : Z) (fault : AudioFault) :
  reachable w →
  In e (timers w) → t_cb e = Countdown id →
  id = stationId (sess w)
  ∧ isPlayingMusic (sess w) = true
  ∧ JS.truthy_opt (currentStationName (sess w)) = true
  ∧ playPendingAnnouncement_begin id (clearTimeout (t_id e) w)
    = pendingBufferPromise (sess w)
  ∧ (t_due e <= clock w →
     step (TimerFire (t_id e) fault) w
     = Some (countdown_fired id fault (clearTimeout (t_id e) w))).
Proof.
  intros Hr He Hcb. pose proof (reachable_Inv w Hr) as I.
  destruct (inv_countdown w I e id He Hcb) as (Ht & -> & Hp & Hn).
  split_and?; try done.
  - unfold playPendingAnnouncement_begin. cbn.
    by rewrite Z.eqb_refl, Hp.
  - intros Hdue. cbn.
    destruct (find_timer_In e w He) as (e' & -> & He' & Hid).
    pose proof (same_handle_Countdown w e e' _ I He He' Hid Hcb) as Hcb'.
    pose proof (inv_due w I e' He').
    assert (Hd' : t_due e' <= clock w).
    { (* both are due no later than now only if e' is *)
      destruct (Z.leb_spec (t_due e') (clock w)); [done|].
      exfalso.
      (* e' precedes or equals e in the table; use the slot bound *)
      destruct (slots_reachable w Hr) as [Hc _].
      unfold countdowns in Hc.
      assert (Hin : ∀ x, In x (timers w) → t_cb x = Countdown (stationId (sess w)) →
                         In x (List.filter (fun e => negb (is_Debounce (t_cb e)))
                                 (timers w))).
      { intros x Hx Hk. apply filter_In. split; [done|]. by rewrite Hk. }
      pose proof (Hin e He Hcb) as H1. pose proof (Hin e' He' Hcb') as H2.
      destruct (List.filter _ (timers w)) as [|a [|b l]]; cbn in *;
        [done| |lia].
      destruct H1 as [<-|[]], H2 as [<-|[]]. lia. }
    apply Z.leb_le in Hd'. by rewrite Hd', Hcb'.
Qed.

Lemma armed_countdown_is_current_witness :
  let w := after [StationChange "Funk" "95.5"; SetMusicPlaying true] in
  1 = stationId (sess w) ∧ isPlayingMusic (sess w) = true.
Proof.
  cbn zeta.
  destruct (armed_countdown_is_current
              (after [StationChange "Funk" "95.5"; SetMusicPlaying true])
              (mkTimer 2 15000 (Countdown 1)) 1 NoFault)
    as (H1 & H2 & _).
  - exists [StationChange "Funk" "95.5"; SetMusicPlaying true].
    vm_compute. reflexivity.
  - vm_compute. tauto.
  - reflexivity.
  - split; assumption.
Defined.

(** ** The settle (debounce) timeout *)

(** X6.  When the settle timeout of a reachable world is due and fires, one
    generation request is issued for the tuned station and frequency and
    the current epoch, and its promise becomes [pendingBufferPromise].
    This does not depend on [isPlayingMusic]: the request is made also
    while music is stopped. *)
Theorem settle_fires_request
    (w : World) (e : TimerEntry) (n f : string) (fault : AudioFault) :
  reachable w →
  In e (timers w) → t_cb e = Debounce n f → t_due e <= clock w →
  ∃ w', step (TimerFire (t_id e) fault) w = Some w'
        ∧ effects w' = GenerateScript n f :: effects w
        ∧ promises w'
          = (promises w
              ++ [mkGen (stationId (sess w)) n f (Pending AwaitScript)])%list
        ∧ pendingBufferPromise (sess w') = Some (length (promises w))
        ∧ currentStationName (sess w') = Some n
        ∧ currentFrequency (sess w') = Some f
        ∧ isPlayingMusic (sess w') = isPlayingMusic (sess w)
        ∧ settles w' = [].
Proof.
  intros Hr He Hcb Hdue. pose proof (reachable_Inv w Hr) as I.
  destruct (find_timer_In e w He) as (e' & Hf & He' & Hid).
  pose proof (same_handle_Debounce w e e' n f I He He' Hid Hcb) as Hcb'.
  destruct (slots_reachable w Hr) as [_ Hs]. unfold settles in Hs.
  assert (Hin : ∀ x, In x (timers w) → t_cb x = Debounce n f →
                     In x (List.filter (fun e => is_Debounce (t_cb e))
                             (timers w))).
  { intros x Hx Hk. apply filter_In. split; [done|]. by rewrite Hk. }
  assert (e' = e) as ->.
  { pose proof (Hin e He Hcb) as H1. pose proof (Hin e' He' Hcb') as H2.
    destruct (List.filter _ (timers w)) as [|a [|b l]]; cbn in *;
      [done| |lia].
    by destruct H1 as [<-|[]], H2 as [<-|[]]. }
  destruct (inv_settle w I e n f He Hcb) as (Hd & Hn & Hfr & _).
  eexists. split.
  { cbn. rewrite Hf. apply Z.leb_le in Hdue. rewrite Hdue, Hcb. done. }
  cbn. split_and?; try done.
  apply filter_none. intros x [Hx Hne]%In_clear.
  pose proof (Inv_owner w x I Hx) as Ho.
  destruct (is_Debounce (t_cb x)); [|done]. congruence.
Qed.

Lemma settle_fires_request_witness :
  let w := after [StationChange "Funk" "95.5"; Elapse 800] in
  isPlayingMusic (sess w) = false
  ∧ ∃ w', step (TimerFire 1 NoFault) w = Some w'
          ∧ effects w' = GenerateScript "Funk" "95.5" :: effects w.
Proof.
  cbn zeta. split; [reflexivity|].
  destruct (settle_fires_request
              (after [StationChange "Funk" "95.5"; Elapse 800])
              (mkTimer 1 800 (Debounce "Funk" "95.5")) "Funk" "95.5" NoFault)
    as (w' & H1 & H2 & _).
  - exists [StationChange "Funk" "95.5"; Elapse 800]. vm_compute. reflexivity.
  - vm_compute. tauto.
  - reflexivity.
  - vm_compute. discriminate.
  - exists w'. split; assumption.
Defined.









(** ** The generation pipeline: missing and empty results *)

Lemma resume_aborts p id r fault w :
  passes id r w = None → (∀ e, r ≠ Throw e) →
  playPendingAnnouncement_resume p id r fault w = (Normal tt, w).
Proof.
  intros H Hr. rewrite resume_unfold. rewrite H.
  destruct r as [v|e]; [done|]. by destruct (Hr e).
Qed.

Lemma resume_all_promises p r ws faults w :
  promises (resume_all p r ws faults w) = promises w.
Proof.
  pose proof (resume_all_core p r ws faults w) as H.
  unfold core in H. by inversion H.
Qed.

Lemma deliver_promise p d faults w w' :
  deliver p d faults w = Some w' →
  ∃ id station freq k body nx,
    promises w !! p = Some (mkGen id station freq (Pending k))
    ∧ generateAnnouncement_resume id k d = Some body
    ∧ fst (body w) = Normal nx
    ∧ promises w'
      = <[p := mkGen id station freq (promise_of (Normal nx))]> (promises w).
Proof.
  intros H. apply deliver_unfold in H
    as (id & station & freq & k & body & nx & HG & Hb & Hnx & ->).
  exists id, station, freq, k, body, nx. split_and?; try done.
  destruct (generation_body id k d body w Hb) as (nx' & _ & _ & Hc & _).
  assert (Hps : promises (snd (body w)) = promises w).
  { unfold core in Hc. by inversion Hc. }
  cbn zeta. destruct nx; [|rewrite resume_all_promises]; cbn; by rewrite Hps.
Qed.

Lemma resume_all_null p ws faults w :
  resume_all p (Normal None) ws faults w = w.
Proof.
  revert faults. induction ws as [|[q id] ws IH]; intros faults; [done|].
  cbn [resume_all]. destruct (q =? p)%nat; [|apply IH].
  rewrite resume_aborts by done. apply IH.
Qed.










(** X9.  The speech stage, for a pipeline of the current epoch: the audio
    data is looked for in the first part of the first candidate only; when
    any link of that chain is missing, or the data is the empty string, the
    pipeline resolves to null and nothing is decoded; otherwise exactly one
    decoding is started, of that data. *)
Theorem speech_data_edge
    (w : World) (p : nat) (station freq : string) (resp : Response)
    (faults : list AudioFault) :
  promises w !! p
  = Some (mkGen (stationId (sess w)) station freq (Pending AwaitTts)) →
  (audioData_of resp
   = match candidates resp with
     | Some (c :: _) =>
         match content c with
         | Some ct =>
             match parts ct with
             | Some (pt :: _) =>
                 match inlineData pt with
                 | Some bl => data bl
                 | None => None
                 end
             | _ => None
             end
         | None => None
         end
     | _ => None
     end)
  ∧ ∃ w', deliver p (TtsResponse (Normal resp)) faults w = Some w'
    ∧ match audioData_of resp with
      | Some (String c r) =>
          promises w' !! p
          = Some (mkGen (stationId (sess w)) station freq
                        (Pending AwaitDecode))
          ∧ effects w' = DecodeAudio (String c r) :: effects w
      | _ =>
          promises w' !! p
          = Some (mkGen (stationId (sess w)) station freq (Fulfilled None))
          ∧ effects w' = effects w
      end.
Proof.
  intros HG. pose proof (lookup_lt_Some _ _ _ HG) as Hlt. split.
  { unfold audioData_of.
    destruct (candidates resp) as [[|c cs]|]; cbn; try reflexivity.
    destruct (content c) as [ct|]; cbn; try reflexivity.
    destruct (parts ct) as [[|pt ps]|]; cbn; reflexivity. }
  unfold deliver. rewrite HG. cbn.
  unfold try_catch, after_tts, bind, await. cbn.
  rewrite Z.eqb_refl. cbn.
  destruct (audioData_of resp) as [[|c r]|]; cbn.
  - eexists. split; [done|]. rewrite resume_all_null. cbn.
    split; [|done]. by apply list_lookup_insert_eq.
  - eexists. split; [done|]. cbn.
    split; [by apply list_lookup_insert_eq|done].
  - eexists. split; [done|]. rewrite resume_all_null. cbn.
    split; [|done]. by apply list_lookup_insert_eq.
Qed.

Lemma speech_data_edge_witness :
  let w := after [StationChange "Funk" "95.5"; Elapse 800;
                  TimerFire 1 NoFault;
                  Deliver 0 (ScriptResponse
                    (Normal {| text := Some "Funk on 95.5";
                               candidates := None |})) []] in
  ∃ w', deliver 0 (TtsResponse
                     (Normal {| text := None; candidates := Some [] |}))
                [] w = Some w'
        ∧ promises w' !! 0%nat
          = Some (mkGen 1 "Funk" "95.5" (Fulfilled None))
        ∧ effects w' = effects w.
Proof.
  cbn zeta.
  refine (proj2 (speech_data_edge
           (after [StationChange "Funk" "95.5"; Elapse 800;
                   TimerFire 1 NoFault;
                   Deliver 0 (ScriptResponse
                     (Normal {| text := Some "Funk on 95.5";
                                candidates := None |})) []])
           0 "Funk" "95.5"
           {| text := None; candidates := Some [] |} [] _)).
  vm_compute. reflexivity.
Defined.

(** ** The audio graph along a run *)

Lemma resume_audio p id r fault w :
  audio (snd (playPendingAnnouncement_resume p id r fault w)) = audio w
  ∨ ∃ b, audio (snd (playPendingAnnouncement_resume p id r fault w))
         = audio (snd (wire fault b w)).
Proof.
  rewrite resume_unfold. destruct r as [v|e]; [|by left].
  destruct (passes id (Normal v) w) as [b|]; [|by left].
  right. exists b.
  assert (E : audio (snd (wire fault b (record_attempt (p, id, b) w)))
              = audio (snd (wire fault b w))) by (by destruct fault).
  rewrite <- E. by destruct (wire fault b _) as [[[]|e] w'].
Qed.

(** A property of the audio graph kept by the wiring and by the [onended]
    handler is kept by every step. *)
Lemma step_audio_ind (P : Audio → Prop) :
  (∀ fault b w, P (audio w) → P (audio (snd (wire fault b w)))) →
  (∀ s w w', source_ended s w = Some w' → P (audio w) → P (audio w')) →
  ∀ l w w', step l w = Some w' → P (audio w) → P (audio w').
Proof.
  intros Hwire Hend.
  assert (Hres : ∀ p id r fault w,
             P (audio w) →
             P (audio (snd (playPendingAnnouncement_resume p id r fault w)))).
  { intros p id r fault w H.
    destruct (resume_audio p id r fault w) as [->|[b ->]]; [done|].
    by apply Hwire. }
  assert (Hall : ∀ p r ws faults w,
             P (audio w) → P (audio (resume_all p r ws faults w))).
  { intros p r ws. induction ws as [|[q id] ws IH]; intros faults w H; [done|].
    cbn [resume_all]. destruct (q =? p)%nat; [|by apply IH].
    by apply IH, Hres. }
  intros l w w' Hs HP.
  destruct l as [n f|playing|d|h fault|p d faults|s]; cbn in Hs.
  - injection Hs as <-.
    by destruct (rest_fields _ _ (rest_onStationChange n f w))
      as (_&_&_& -> &_).
  - injection Hs as <-.
    by destruct (rest_fields _ _ (rest_setMusicPlaying playing w))
      as (_&_&_& -> &_).
  - destruct (_ && _); [|done]. by injection Hs as <-.
  - destruct (find_timer h w) as [e|]; [|done].
    destruct (t_due e <=? clock w); [|done]. injection Hs as <-.
    destruct (t_cb e) as [myId|n f]; cbn [run_callback]; [|done].
    unfold countdown_fired.
    destruct (playPendingAnnouncement_begin _ _) as [p|]; [|done].
    destruct (promises _ !! p) as [G|]; [|done].
    destruct (settled _) as [r|]; [|done].
    by apply Hres.
  - apply deliver_unfold in Hs
      as (id & station & freq & k & body & nx & HG & Hb & Hnx & ->).
    destruct (generation_body id k d body w Hb)
      as (_ & _ & _ & _ & Hau & _).
    cbn zeta. destruct nx; cbn; [by rewrite Hau|].
    apply Hall. cbn. by rewrite Hau.
  - by eapply Hend.
Qed.

Lemma exec_audio_ind (P : Audio → Prop) :
  (∀ fault b w, P (audio w) → P (audio (snd (wire fault b w)))) →
  (∀ s w w', source_ended s w = Some w' → P (audio w) → P (audio w')) →
  ∀ ls w w', exec ls w = Some w' → P (audio w) → P (audio w').
Proof.
  intros Hwire Hend ls. induction ls as [|l ls IH]; cbn; intros w w'.
  - by intros [= <-].
  - destruct (step l w) as [w1|] eqn:Hs; [|done]. intros H HP.
    apply (IH w1 w' H). by eapply step_audio_ind.
Qed.

Lemma In_disconnect node a e :
  In e (edges (disconnect node a)) ↔ In e (edges a) ∧ fst e ≠ node.
Proof.
  cbn. rewrite filter_In, negb_true_iff, bool_decide_eq_false. tauto.
Qed.

Lemma source_ended_edges s w w' e :
  source_ended s w = Some w' →
  In e (edges (audio w')) ↔
  In e (edges (audio w))
  ∧ ∀ g, List.find (fun h => (fst h =? s)%nat) (onended (audio w))
         = Some (s, g) →
         fst e ≠ SourceNode s ∧ fst e ≠ GainNode g.
Proof.
  intros (_ & _ & _ & _ & _ & _ & Hm)%source_ended_unfold.
  destruct (List.find _ _) as [[s' g]|] eqn:Hf.
  - pose proof Hf as [_ Heq]%find_some. cbn in Heq.
    apply Nat.eqb_eq in Heq as ->. destruct Hm as [-> _].
    rewrite !filter_In, !negb_true_iff, !bool_decide_eq_false. split.
    + intros [[He H1] H2]. split; [done|]. by intros g' [= <-].
    + intros [He H]. destruct (H g eq_refl). by split_and?.
  - destruct Hm as [-> _]. split; [|by intros [? _]]. by split.
Qed.

Lemma wire_audio fault b w :
  audio (snd (wire fault b w)) = wired_audio fault b (audio w).
Proof. destruct w as [? ? ? ? ? ? [] ? ?]. by destruct fault. Qed.

Lemma wire_AudioInv fault b w :
  AudioInv (audio w) → AudioInv (audio (snd (wire fault b w))).
Proof.
  rewrite wire_audio. generalize (audio w). clear w. intros a [Hb Hp Hw].
  destruct fault; cbn; [|done|..].
  1: { constructor; cbn.
       - intros s g [[= <- <-]|H]; [lia|]. pose proof (Hb s g H). lia.
       - intros s g s' g' [[= <- <-]|H] [[= <- <-]|H'].
         + done.
         + pose proof (Hb s' g' H'). split; lia.
         + pose proof (Hb s g H). split; lia.
         + by apply Hp.
       - intros s [<-|H].
         + eexists. split_and?; [by left|by left|by right; right; left
                                |by right; left].
         + destruct (Hw s H) as (g & ? & ? & ? & ?).
           exists g. split_and?; by repeat right. }
  all: constructor; cbn; try done.
  all: try (intros s g H; pose proof (Hb s g H); lia).
  all: intros s H; destruct (Hw s H) as (g & ? & ? & ? & ?);
    exists g; split_and?; try done; by repeat right.
Qed.

Lemma source_ended_AudioInv s w w' :
  source_ended s w = Some w' → AudioInv (audio w) → AudioInv (audio w').
Proof.
  intros Hs [Hb Hp Hw].
  pose proof Hs as (_ & Hst & Hon & _ & _ & _ & Hm)%source_ended_unfold.
  constructor.
  - rewrite Hon. intros s0 g H. specialize (Hb s0 g H).
    assert (nextNode (audio w') = nextNode (audio w)); [|lia].
    unfold source_ended in Hs. destruct (bool_decide _); [|done].
    cbn in Hs. destruct (List.find _ _) as [[]|]; injection Hs as <-;
      cbn; by repeat (destruct (bool_decide _)).
  - rewrite Hon. apply Hp.
  - rewrite Hst, Hon. intros s' [Hs' Hne]%filter_In.
    apply negb_true_iff, Nat.eqb_neq in Hne.
    destruct (Hw s' Hs') as (g' & Hh & H1 & H2 & H3).
    exists g'. split; [done|].
    assert (Hkeep : ∀ e, In e (edges (audio w)) →
               (fst e = SourceNode s' ∨ fst e = GainNode g') →
               In e (edges (audio w'))).
    { intros e He Hk. apply (source_ended_edges s w w' e Hs).
      split; [done|]. intros g [Hin Heq]%find_some.
      split.
      - destruct Hk as [-> | ->]; [congruence|done].
      - destruct Hk as [-> | ->]; [done|].
        intros [= ->]. apply Hne. by apply (Hp s' g s g Hh Hin). }
    split_and?; apply Hkeep; try done; cbn; auto.
Qed.

Lemma reachable_AudioInv w : reachable w → AudioInv (audio w).
Proof.
  intros [ls H].
  apply (exec_audio_ind AudioInv wire_AudioInv source_ended_AudioInv
           ls init w H).
  by constructor.
Qed.

(** X10.  In every reachable world, each announcement that is playing is
    connected through its own gain node to both the speakers and the
    visualizer node, and its [onended] handler holds that source and that
    gain node; no two playbacks share a gain node. *)
Theorem playing_feeds_both_outputs (w : World) (s : nat) :
  reachable w → In s (started (audio w)) →
  ∃ g, In (s, g) (onended (audio w))
       ∧ In (SourceNode s, GainNode g) (edges (audio w))
       ∧ In (GainNode g, Speakers) (edges (audio w))
       ∧ In (GainNode g, Visualizer) (edges (audio w))
       ∧ ∀ s' g', In (s', g') (onended (audio w)) → (s = s' ↔ g = g').
Proof.
  intros Hr Hs. destruct (reachable_AudioInv w Hr) as [Hb Hp Hw].
  destruct (Hw s Hs) as (g & Hh & H1 & H2 & H3).
  exists g. split_and?; try done. intros s' g' H'. by apply Hp.
Qed.

Lemma playing_feeds_both_outputs_witness :
  let w := after (announce_trace NoFault) in
  ∃ g, In (1%nat, g) (onended (audio w))
       ∧ In (SourceNode 1, GainNode g) (edges (audio w))
       ∧ In (GainNode g, Speakers) (edges (audio w))
       ∧ In (GainNode g, Visualizer) (edges (audio w))
       ∧ ∀ s' g', In (s', g') (onended (audio w)) → (1%nat = s' ↔ g = g').
Proof.
  cbn zeta.
  apply (playing_feeds_both_outputs (after (announce_trace NoFault)) 1%nat).
  - exists (announce_trace NoFault). vm_compute. reflexivity.
  - vm_compute. tauto.
Defined.

Lemma wire_leaked g fault b w :
  leaked g (audio w) → leaked g (audio (snd (wire fault b w))).
Proof.
  rewrite wire_audio. generalize (audio w). clear w.
  intros a (He & Hlt & Hno).
  destruct fault; unfold leaked; cbn;
    (split_and?; [by repeat right|lia|]); try done.
  intros s [[= _ <-]|H]; [lia|]. by apply (Hno s).
Qed.

Lemma source_ended_leaked g s w w' :
  source_ended s w = Some w' → leaked g (audio w) → leaked g (audio w').
Proof.
  intros Hs (He & Hlt & Hno).
  pose proof Hs as (_ & _ & Hon & _)%source_ended_unfold.
  unfold leaked. split_and?.
  - apply (source_ended_edges s w w' _ Hs). split; [done|].
    intros g' [Hin _]%find_some. split; [done|].
    intros [= <-]. by apply (Hno s).
  - assert (nextNode (audio w') = nextNode (audio w)) as ->; [|done].
    unfold source_ended in Hs. destruct (bool_decide _); [|done].
    cbn in Hs. destruct (List.find _ _) as [[]|]; injection Hs as <-;
      cbn; by repeat (destruct (bool_decide _)).
  - by rewrite Hon.
Qed.

(** X11.  When an audio call throws after the new gain node was connected
    to the speakers, nothing plays, and that connection is never removed:
    the [catch] clause only logs, and the gain node belongs to no
    [onended] handler.  It is still there after every later execution. *)
Theorem failed_wiring_stays_connected
    (w : World) (p : nat) (b : AudioBuffer) (fault : AudioFault) :
  reachable w →
  isPlayingMusic (sess w) = true →
  after_connect fault = true →
  let w1 := snd (playPendingAnnouncement_resume
                   p (stationId (sess w)) (Normal (Some b)) fault w) in
  started (audio w1) = started (audio w)
  ∧ onended (audio w1) = onended (audio w)
  ∧ ∀ ls w2, exec ls w1 = Some w2 →
             In (GainNode (nextNode (audio w)), Speakers) (edges (audio w2)).
Proof.
  intros Hr Hp Hf. cbn zeta.
  destruct (reachable_AudioInv w Hr) as [Hb _ _].
  assert (Hau : audio (snd (playPendingAnnouncement_resume
                   p (stationId (sess w)) (Normal (Some b)) fault w))
                = wired_audio fault b (audio w)).
  { rewrite resume_unfold. unfold passes. rewrite Z.eqb_refl, Hp. cbn.
    rewrite <- wire_audio.
    assert (E : audio (snd (wire fault b
                              (record_attempt (p, stationId (sess w), b) w)))
                = audio (snd (wire fault b w))) by (by rewrite !wire_audio).
    rewrite <- E. by destruct (wire fault b _) as [[[]|e] w']. }
  split_and?.
  - rewrite Hau. by destruct fault.
  - rewrite Hau. by destruct fault.
  - intros ls w2 H.
    assert (Hl : leaked (nextNode (audio w))
                   (audio (snd (playPendingAnnouncement_resume
                      p (stationId (sess w)) (Normal (Some b)) fault w)))).
    { rewrite Hau. unfold leaked. split_and?.
      - destruct fault; cbn; try done; by repeat (try (by left); right).
      - destruct fault; cbn; try done; lia.
      - intros s Hin.
        assert (Hin' : In (s, nextNode (audio w)) (onended (audio w))).
        { by destruct fault. }
        pose proof (Hb _ _ Hin'). lia. }
    by destruct (exec_audio_ind (leaked (nextNode (audio w)))
                   (wire_leaked _) (source_ended_leaked _) ls _ w2 H Hl).
Qed.

Lemma failed_wiring_stays_connected_witness :
  let w := after (announce_trace AtCreateGain) in
  let w1 := snd (playPendingAnnouncement_resume
                   0 (stationId (sess w)) (Normal (Some 7%nat)) AtStart w) in
  let ls := [SetMusicPlaying false; SetMusicPlaying true;
             StationChange "Dubstep" "104.5"] in
  In (GainNode (nextNode (audio w)), Speakers)
     (edges (audio (default init (exec ls w1)))).
Proof.
  cbn zeta.
  refine (proj2 (proj2 (failed_wiring_stays_connected
            (after (announce_trace AtCreateGain)) 0 7%nat AtStart _ _ _))
            [SetMusicPlaying false; SetMusicPlaying true;
             StationChange "Dubstep" "104.5"] _ _).
  - exists (announce_trace AtCreateGain). vm_compute. reflexivity.
  - vm_compute. reflexivity.
  - reflexivity.
  - vm_compute. reflexivity.
Defined.

(** ** Suspended triggers *)

(** X19.  A [playPendingAnnouncement] that is suspended at its [await]
    waits on a promise that is still pending and belongs to the pipeline of
    the epoch the countdown was armed for, an epoch not later than the
    current one; no trigger waits on a settled promise. *)
Theorem suspended_trigger_awaits_pending (w : World) (p : nat) (id : Z) :
  reachable w → In (p, id) (waiters w) →
  id <= stationId (sess w)
  ∧ ∃ G k, promises w !! p = Some G ∧ g_id G = id ∧ g_state G = Pending k.
Proof.
  intros Hr Hin. pose proof (reachable_Inv w Hr) as I.
  destruct (inv_waiters w I p id Hin) as (G & k & HG & Hid & Hst).
  split; [|by exists G, k].
  pose proof (inv_epoch w I p G HG). lia.
Qed.

Lemma suspended_trigger_awaits_pending_witness :
  let w := after [StationChange "Funk" "95.5"; SetMusicPlaying true;
                  Elapse 800; TimerFire 1 NoFault;
                  Elapse 14200; TimerFire 2 NoFault] in
  1 <= stationId (sess w)
  ∧ ∃ G k, promises w !! 0%nat = Some G ∧ g_id G = 1 ∧ g_state G = Pending k.
Proof.
  cbn zeta.
  apply (suspended_trigger_awaits_pending
           (after [StationChange "Funk" "95.5"; SetMusicPlaying true;
                   Elapse 800; TimerFire 1 NoFault;
                   Elapse 14200; TimerFire 2 NoFault]) 0%nat 1).
  - exists [StationChange "Funk" "95.5"; SetMusicPlaying true;
            Elapse 800; TimerFire 1 NoFault;
            Elapse 14200; TimerFire 2 NoFault].
    vm_compute. reflexivity.
  - vm_compute. tauto.
Defined.

(** * The dial and the listeners of [index.tsx] *)

Module DialFacts.
Import Dial.

(** ** Printing and parsing decimal numbers *)

Lemma digit_cases d : 0 <= d < 10 →
  d = 0 ∨ d = 1 ∨ d = 2 ∨ d = 3 ∨ d = 4 ∨ d = 5 ∨ d = 6 ∨ d = 7 ∨ d = 8 ∨ d = 9.
Proof. lia. Qed.

Lemma digit_of_char d : 0 <= d < 10 → digit_of (digit_char d) = Some d.
Proof.
  intros H. destruct (digit_cases d H) as [->|[->|[->|[->|[->|[->|[->|[->|[->| ->]]]]]]]]];
    reflexivity.
Qed.

Lemma digit_char_plain d : 0 <= d < 10 →
  JS.is_space (digit_char d) = false
  ∧ digit_char d ≠ "-"%char ∧ digit_char d ≠ "+"%char.
Proof.
  intros H. destruct (digit_cases d H) as [->|[->|[->|[->|[->|[->|[->|[->|[->| ->]]]]]]]]];
    by split_and?.
Qed.

Lemma show_aux_parse fuel : ∀ n acc,
  0 <= n < 2 ^ Z.of_nat fuel →
  ∃ k, 0 <= k ∧ ∀ a, parse_digits a (show_aux fuel n acc)
                      = parse_digits (a * 10 ^ k + n) acc.
Proof.
  induction fuel as [|fuel IH]; intros n acc Hn.
  - exists 0. split; [done|]. intros a. cbn in *.
    assert (n = 0) as -> by lia. f_equal; lia.
  - cbn [show_aux]. destruct (n <? 10) eqn:E.
    + apply Z.ltb_lt in E. exists 1. split; [done|]. intros a.
      rewrite Z.mod_small by lia. cbn [parse_digits].
      rewrite digit_of_char by lia. f_equal; lia.
    + apply Z.ltb_ge in E.
      destruct (IH (n / 10) (String (digit_char (n mod 10)) acc)) as (k & Hk & H).
      { split; [apply Z.div_pos; lia|].
        apply Z.div_lt_upper_bound; [lia|].
        rewrite Nat2Z.inj_succ, Z.pow_succ_r in Hn by lia. lia. }
      exists (k + 1). split; [lia|]. intros a. rewrite H.
      cbn [parse_digits]. rewrite digit_of_char by (apply Z.mod_pos_bound; lia).
      f_equal. rewrite Z.pow_add_r by lia.
      pose proof (Z.div_mod n 10). lia.
Qed.

Lemma show_nat_fuel n : 0 <= n → 0 <= n < 2 ^ Z.of_nat (S (Z.to_nat (Z.log2 n))).
Proof.
  intros H. split; [done|].
  rewrite Nat2Z.inj_succ, Z2Nat.id by apply Z.log2_nonneg.
  destruct (Z.eq_dec n 0) as [->|Hne]; [done|].
  apply Z.log2_spec. lia.
Qed.

(** What [parseInt] reads back from a printed number followed by [rest]. *)
Lemma parse_show n rest a :
  0 <= n →
  ∃ k, 0 <= k ∧ parse_digits a (show_aux (S (Z.to_nat (Z.log2 n))) n rest)
                = parse_digits (a * 10 ^ k + n) rest.
Proof.
  intros H. destruct (show_aux_parse _ n rest (show_nat_fuel n H)) as (k & Hk & E).
  exists k. by split.
Qed.

Lemma show_aux_head fuel : ∀ n acc,
  0 <= n →
  ∃ d r, 0 <= d < 10 ∧ show_aux (S fuel) n acc = String (digit_char d) r.
Proof.
  induction fuel as [|fuel IH]; intros n acc Hn.
  - cbn. exists (n mod 10). destruct (n <? 10); eexists;
      (split; [apply Z.mod_pos_bound; lia|done]).
  - cbn [show_aux]. destruct (n <? 10).
    + exists (n mod 10). eexists. split; [apply Z.mod_pos_bound; lia|done].
    + apply IH. apply Z.div_pos; lia.
Qed.

Lemma show_aux_no_dash fuel : ∀ n acc,
  0 <= n → has_char "-" acc = false → has_char "-" (show_aux fuel n acc) = false.
Proof.
  induction fuel as [|fuel IH]; intros n acc Hn Hacc; [done|].
  cbn [show_aux].
  assert (H : has_char "-" (String (digit_char (n mod 10)) acc) = false).
  { cbn. rewrite Hacc, orb_false_r. apply Ascii.eqb_neq.
    apply digit_char_plain. apply Z.mod_pos_bound. lia. }
  destruct (n <? 10); [done|]. apply IH; [apply Z.div_pos; lia|done].
Qed.

(** X12 support: [parseInt] inverts the printing of a natural number. *)
(** [parseInt] on a string that starts with neither white space nor a
    sign. *)
Lemma parseInt_plain c r :
  JS.is_space c = false → c ≠ "-"%char → c ≠ "+"%char →
  parseInt (String c r)
  = match digit_of c with
    | Some _ => Some (parse_digits 0 (String c r))
    | None => None
    end.
Proof.
  intros Hs Hm Hp. unfold parseInt.
  cbn [list_ascii_of_string JS.trim_start]. rewrite Hs.
  cbn [string_of_list_ascii]. rewrite string_of_list_ascii_of_string.
  destruct c as [[] [] [] [] [] [] [] []]; try done;
    destruct (digit_of _); try done; f_equal; lia.
Qed.

(** [parseInt] inverts the printing of a natural number. *)
Lemma parseInt_show n : 0 <= n → parseInt (show_nat n) = Some n.
Proof.
  intros Hn. unfold show_nat.
  destruct (parse_show n "" 0 Hn) as (k & Hk & Hparse).
  destruct (show_aux_head (Z.to_nat (Z.log2 n)) n "" Hn) as (d & r & Hd & E).
  rewrite E in *. clear E.
  destruct (digit_char_plain d Hd) as (Hsp & Hm & Hp).
  rewrite parseInt_plain, digit_of_char, Hparse by done.
  cbn [parse_digits]. by rewrite Z.mul_0_l, Z.add_0_l.
Qed.

(** ** Splitting an id at the dash *)

Lemma split_on_nil sep s : split_on sep s ≠ [].
Proof. destruct s as [|c r]; cbn; [done|]. destruct (Ascii.eqb c sep); [done|]. by destruct (split_on sep r). Qed.

Lemma split_on_none sep s : has_char sep s = false → split_on sep s = [s].
Proof.
  induction s as [|c r IH]; cbn; [done|].
  destruct (Ascii.eqb c sep); cbn; [done|]. intros H. by rewrite IH.
Qed.

Lemma append_nil s : "" ++ s = s.
Proof. reflexivity. Qed.

Lemma append_cons c r s : String c r ++ s = String c (r ++ s).
Proof. reflexivity. Qed.

Lemma split_on_app sep s1 s2 :
  has_char sep s1 = false →
  split_on sep (s1 ++ String sep s2) = s1 :: split_on sep s2.
Proof.
  induction s1 as [|c r IH]; [rewrite append_nil|rewrite append_cons]; cbn.
  - intros _. by rewrite Ascii.eqb_refl.
  - destruct (Ascii.eqb c sep); cbn; [done|]. intros H. by rewrite IH.
Qed.

Lemma split_id n :
  0 <= n → split_on "-" ("prompt-" ++ show_nat n) = ["prompt"; show_nat n].
Proof.
  intros Hn.
  change ("prompt-" ++ show_nat n) with ("prompt" ++ String "-" (show_nat n)).
  rewrite split_on_app by done. f_equal.
  apply split_on_none. by apply show_aux_no_dash.
Qed.

Lemma station_of_built (i : Z) (d : string * string) :
  0 <= i →
  station_of (initial_prompt i d) = Some (snd d, frequency i).
Proof.
  intros Hi. unfold station_of, initial_prompt. cbn [promptId text].
  by rewrite split_id, parseInt_show.
Qed.



(** [station_of] reads only the id and the text. *)
Lemma station_of_ext p q :
  promptId p = promptId q → text p = text q → station_of p = station_of q.
Proof. unfold station_of. by intros -> ->. Qed.

(** ** The frequency string *)

Lemma show_aux_append fuel : ∀ n acc rest,
  show_aux fuel n acc ++ rest = show_aux fuel n (acc ++ rest).
Proof.
  induction fuel as [|fuel IH]; intros n acc rest; [done|].
  cbn [show_aux]. destruct (n <? 10); [done|]. by rewrite IH.
Qed.

(** Reading back a printed number that is followed by a dot. *)
Lemma parse_show_dot n rest :
  0 <= n → parse_digits 0 (show_nat n ++ String "." rest) = n.
Proof.
  intros Hn. unfold show_nat. rewrite show_aux_append, append_nil.
  destruct (parse_show n (String "." rest) 0 Hn) as (k & Hk & ->).
  cbn [parse_digits]. change (digit_of ".") with (@None Z).
  by rewrite Z.mul_0_l, Z.add_0_l.
Qed.

Lemma frequency_nonneg i :
  0 <= i →
  frequency i
  = show_nat ((880 + 15 * i) / 10) ++ "." ++ show_nat ((880 + 15 * i) mod 10).
Proof.
  intros Hi. unfold frequency, toFixed1.
  replace (880 + 15 * i <? 0) with false by (symmetry; apply Z.ltb_ge; lia).
  by rewrite Z.abs_eq, append_nil by lia.
Qed.


Lemma frequency_inj (i j : Z) :
  0 <= i → 0 <= j → frequency i = frequency j → i = j.
Proof.
  intros Hi Hj. rewrite !frequency_nonneg by done. intros E.
  apply (f_equal (parse_digits 0)) in E.
  change (?a ++ "." ++ ?b) with (a ++ String "." b) in E.
  rewrite !parse_show_dot in E by (apply Z.div_pos; lia).
  pose proof (Z.div_mod (880 + 15 * i) 10 ltac:(lia)).
  pose proof (Z.mod_pos_bound (880 + 15 * i) 10 ltac:(lia)).
  pose proof (Z.div_mod (880 + 15 * j) 10 ltac:(lia)).
  pose proof (Z.mod_pos_bound (880 + 15 * j) 10 ltac:(lia)). lia.
Qed.



(** ** The map [buildInitialPrompts] builds *)

Lemma id_inj i j :
  0 <= i → 0 <= j →
  "prompt-" ++ show_nat i = "prompt-" ++ show_nat j → i = j.
Proof.
  intros Hi Hj E.
  assert (E' : show_nat i = show_nat j) by (by injection E).
  apply (f_equal parseInt) in E'. rewrite !parseInt_show in E' by done.
  by injection E'.
Qed.

Lemma map_get_app k m1 m2 :
  map_get k (m1 ++ m2)%list
  = match map_get k m1 with Some p => Some p | None => map_get k m2 end.
Proof.
  induction m1 as [|[k' p'] m1 IH]; cbn; [done|].
  by destruct (String.eqb k' k).
Qed.


Lemma map_get_None k m : map_get k m = None ↔ ¬ In k (List.map fst m).
Proof.
  induction m as [|[k' p'] m IH]; cbn; [tauto|].
  destruct (String.eqb_spec k' k) as [->|Hne].
  - split; [done|]. intros H. destruct H. by left.
  - rewrite IH. split; [|tauto]. intros H [?|?]; [done|tauto].
Qed.



Lemma entries_lookup defaults : ∀ i (n : nat),
  entries i defaults !! n
  = (fun d => (promptId (initial_prompt (i + Z.of_nat n) d),
               initial_prompt (i + Z.of_nat n) d)) <$> defaults !! n.
Proof.
  induction defaults as [|d ds IH]; intros i n; [done|].
  destruct n as [|n]; cbn [entries].
  - cbn. by rewrite Z.add_0_r.
  - transitivity (entries (i + 1) ds !! n); [reflexivity|].
    rewrite (IH (i + 1) n).
    replace (i + 1 + Z.of_nat n) with (i + Z.of_nat (S n)) by lia. done.
Qed.

Lemma entries_keys_above defaults : ∀ i k,
  0 <= i → In k (List.map fst (entries i defaults)) →
  ∃ j, i <= j ∧ k = "prompt-" ++ show_nat j.
Proof.
  induction defaults as [|d ds IH]; intros i k Hi; cbn; [done|].
  intros [<-|H]; [exists i; split; [lia|done]|].
  destruct (IH (i + 1) k ltac:(lia) H) as (j & Hj & ->).
  exists j. split; [lia|done].
Qed.

Lemma entries_NoDup defaults : ∀ i,
  0 <= i → List.NoDup (List.map fst (entries i defaults)).
Proof.
  induction defaults as [|d ds IH]; intros i Hi;
    cbn [entries List.map fst promptId initial_prompt]; [constructor|].
  constructor; [|apply IH; lia].
  intros H. apply entries_keys_above in H as (j & Hj & E); [|lia].
  apply id_inj in E; lia.
Qed.

Lemma shaped_keys defaults m :
  shaped defaults m → List.map fst m = List.map fst (entries 0 defaults).
Proof.
  unfold shaped. intros H.
  apply (f_equal (List.map (fun x : string * string * string => fst (fst x)))) in H.
  by rewrite !List.map_map in H.
Qed.

Lemma map_lookup {A B} (f : A → B) (l : list A) : ∀ n : nat,
  List.map f l !! n = f <$> l !! n.
Proof.
  induction l as [|x l IH]; intros [|n]; try done.
  exact (IH n).
Qed.

Lemma shaped_lookup defaults (m : list (string * Prompt)) (n : nat) k p :
  shaped defaults m → m !! n = Some (k, p) →
  ∃ d, defaults !! n = Some d
       ∧ k = "prompt-" ++ show_nat (Z.of_nat n)
       ∧ promptId p = "prompt-" ++ show_nat (Z.of_nat n)
       ∧ text p = snd d.
Proof.
  unfold shaped. intros H Hm.
  apply (f_equal (fun l => l !! n)) in H.
  unfold PromptMap in *.
  rewrite !map_lookup, Hm, entries_lookup in H. cbn in H.
  destruct (defaults !! n) as [d|]; [|done]. cbn in H.
  injection H as -> -> ->. by exists d.
Qed.

Lemma shaped_length defaults m : shaped defaults m → length m = length defaults.
Proof.
  unfold shaped. intros H. apply (f_equal length) in H.
  rewrite !length_map in H. rewrite H. clear.
  generalize 0. induction defaults as [|d ds IH]; intros i; cbn; [done|].
  by rewrite IH.
Qed.

(** ** [setStation] *)

Lemma map_get_middle k p m1 m2 :
  ¬ In k (List.map fst m1) → map_get k (m1 ++ (k, p) :: m2)%list = Some p.
Proof.
  intros H. rewrite map_get_app. apply map_get_None in H. rewrite H.
  cbn. by rewrite String.eqb_refl.
Qed.

Lemma map_set_middle k p p' m1 m2 :
  ¬ In k (List.map fst m1) →
  map_set k p' (m1 ++ (k, p) :: m2)%list = (m1 ++ (k, p') :: m2)%list.
Proof.
  induction m1 as [|[k1 p1] m1 IH]; cbn; intros H.
  - by rewrite String.eqb_refl.
  - destruct (String.eqb_spec k1 k) as [->|Hne]; [destruct H; by left|].
    rewrite IH; [done|]. intros ?. apply H. by right.
Qed.

Lemma set_weights_reweight index todo : ∀ i done,
  List.NoDup (List.map fst (done ++ todo)%list) →
  set_weights i index (List.map fst todo) (done ++ todo)%list
  = Normal (done ++ reweight i index todo)%list.
Proof.
  induction todo as [|[k p] todo IH]; intros i done Hnd; cbn [List.map set_weights reweight fst].
  - by rewrite app_nil_r.
  - assert (Hk : ¬ In k (List.map fst done)).
    { rewrite List.map_app in Hnd. cbn in Hnd.
      apply List.NoDup_remove_2 in Hnd. intros H. apply Hnd.
      apply in_or_app. by left. }
    rewrite map_get_middle, map_set_middle by done.
    set (p' := mkPrompt _ _ _ _ _).
    change (done ++ (k, p') :: todo)%list with (done ++ [(k, p')] ++ todo)%list.
    rewrite app_assoc, IH; [by rewrite <- app_assoc|].
    rewrite <- app_assoc. cbn.
    rewrite List.map_app in *. cbn in *. done.
Qed.

Lemma reweight_shaped_map index m : ∀ i,
  List.map (fun kp => (fst kp, promptId (snd kp), text (snd kp)))
    (reweight i index m)
  = List.map (fun kp => (fst kp, promptId (snd kp), text (snd kp))) m.
Proof.
  induction m as [|[k p] m IH]; intros i; cbn; [done|]. by rewrite IH.
Qed.

Lemma reweight_first_active index (m : list (string * Prompt)) : ∀ i k p,
  i <= index → m !! Z.to_nat (index - i) = Some (k, p) →
  first_active (reweight i index m)
  = Some (mkPrompt (promptId p) (text p) 1 (cc p) (color p)).
Proof.
  induction m as [|[k' p'] m IH]; intros i k p Hi Hm; [done|].
  cbn [reweight first_active weight].
  destruct (Z.eqb_spec i index) as [->|Hne].
  - rewrite Z.sub_diag in Hm. cbn in Hm. injection Hm as -> ->. done.
  - cbn. apply (IH (i + 1) k p); [lia|].
    replace (Z.to_nat (index - i)) with (S (Z.to_nat (index - (i + 1))))
      in Hm by lia.
    done.
Qed.


(** ** From the dial to the announcer *)



(** X15.  Turning the dial reaches the announcer with the right station.
    In a dial whose map has the keys, ids and texts of the table (any
    weights), [setStation(index)] for a station other than the active one
    does not throw and emits one [prompts-changed]; from its detail the
    listener calls [onStationChange] with the text of that station and the
    frequency [(88.0 + index * 1.5).toFixed(1)], which is also the
    frequency the display then shows.  The new dial has the same shape, so
    this holds again for the next turn. *)
Theorem tune_reaches_announcer
    (defaults : list (string * string)) (st : State) (index : Z)
    (d : string * string) (w : World) :
  shaped defaults (prompts st) →
  promptKeys st = List.map fst (prompts st) →
  0 <= index → defaults !! Z.to_nat index = Some d →
  index ≠ activeIndex st →
  ∃ st' detail,
    setStation index st = Normal (st', Some detail)
    ∧ on_prompts_changed detail w = onStationChange (snd d) (frequency index) w
    ∧ displayed_frequency st' = frequency index
    ∧ activeIndex st' = index
    ∧ shaped defaults (prompts st')
    ∧ promptKeys st' = List.map fst (prompts st').
Proof.
  intros Hsh Hkeys Hi Hd Hne.
  unfold setStation. apply Z.eqb_neq in Hne. rewrite Hne, Hkeys.
  pose proof (set_weights_reweight index (prompts st) 0 []) as Hw.
  cbn [app] in Hw. rewrite Hw.
  2:{ rewrite (shaped_keys defaults) by done. by apply entries_NoDup. }
  eexists _, _. split; [done|]. cbn [prompts promptKeys activeIndex].
  assert (Hlen : (Z.to_nat index < length (prompts st))%nat).
  { rewrite (shaped_length defaults) by done. by eapply lookup_lt_Some. }
  unfold PromptMap in *.
  destruct (lookup_lt_is_Some_2 _ _ Hlen) as [[k p] Hkp].
  destruct (shaped_lookup defaults _ _ k p Hsh Hkp) as (d' & Hd' & -> & Hid & Htx).
  assert (d' = d) as -> by congruence.
  split_and?; try done.
  - unfold on_prompts_changed.
    rewrite (reweight_first_active index _ 0 _ p Hi)
      by (by rewrite Z.sub_0_r).
    rewrite (station_of_ext _ (initial_prompt index d)).
    + by rewrite station_of_built.
    + cbn. rewrite Hid. by rewrite Z2Nat.id.
    + cbn. done.
  - unfold shaped. by rewrite reweight_shaped_map.
  - clear. generalize 0. induction (prompts st) as [|[k p] m IH]; intros i;
      cbn; [done|]. by rewrite <- IH.
Qed.

Lemma tune_reaches_announcer_witness :
  ∃ st' detail,
    setStation 11 (create buildInitialPrompts) = Normal (st', Some detail)
    ∧ on_prompts_changed detail init = onStationChange "Dubstep" "104.5" init.
Proof.
  destruct (tune_reaches_announcer DEFAULT_PROMPTS (create buildInitialPrompts)
              11 ("#ffdd28", "Dubstep") init)
    as (st' & detail & H1 & H2 & _).
  - vm_compute. reflexivity.
  - vm_compute. reflexivity.
  - lia.
  - vm_compute. reflexivity.
  - vm_compute. discriminate.
  - exists st', detail. split; [exact H1|exact H2].
Defined.

(** X16.  The listener looks at the first prompt with a positive weight
    and at no other ([break]): prompts before it, and everything after
    it, do not matter.  When there is no such prompt, or its id does not
    consist of two parts separated by one dash with a number second, the
    announcer is left untouched, even if a later prompt is active and
    well formed. *)
Theorem listener_first_active_only
    (before after : PromptMap) (k : string) (p : Prompt) (w : World) :
  (∀ q, In q (List.map snd before) → weight q <= 0) →
  0 < weight p →
  on_prompts_changed (before ++ (k, p) :: after)%list w
  = on_prompts_changed [(k, p)] w
  ∧ on_prompts_changed before w = w
  ∧ (has_char "-" (promptId p) = false →
     on_prompts_changed (before ++ (k, p) :: after)%list w = w)
  ∧ (∀ a b, promptId p = a ++ String "-" b →
            has_char "-" a = false → has_char "-" b = false →
            parseInt b = None →
            on_prompts_changed (before ++ (k, p) :: after)%list w = w).
Proof.
  intros Hb Hp.
  assert (Hf : first_active (before ++ (k, p) :: after)%list = Some p).
  { induction before as [|[k' q] m IH]; cbn.
    - apply Z.ltb_lt in Hp. by rewrite Hp.
    - replace (0 <? weight q) with false.
      + apply IH. intros q' Hq'. apply Hb. by right.
      + symmetry. apply Z.ltb_ge. apply Hb. by left. }
  assert (Hn : first_active before = None).
  { clear Hf. induction before as [|[k' q] m IH]; cbn; [done|].
    replace (0 <? weight q) with false.
    - apply IH. intros q' Hq'. apply Hb. by right.
    - symmetry. apply Z.ltb_ge. apply Hb. by left. }
  unfold on_prompts_changed. rewrite Hf, Hn. cbn [first_active].
  apply Z.ltb_lt in Hp. rewrite Hp. split_and?; try done.
  - intros Hd. unfold station_of. by rewrite split_on_none.
  - intros a b E Ha Hbd Hpi. unfold station_of.
    by rewrite E, split_on_app, (split_on_none _ b), Hpi.
Qed.

Lemma listener_first_active_only_witness :
  on_prompts_changed
    [("x", mkPrompt "x" "Off" 0 0 "#000");
     ("bad", mkPrompt "station_one" "Funk" 1 1 "#000");
     ("prompt-2", mkPrompt "prompt-2" "Dubstep" 1 2 "#000")] init
  = on_prompts_changed [("bad", mkPrompt "station_one" "Funk" 1 1 "#000")] init.
Proof.
  refine (proj1 (listener_first_active_only
            [("x", mkPrompt "x" "Off" 0 0 "#000")]
            [("prompt-2", mkPrompt "prompt-2" "Dubstep" 1 2 "#000")]
            "bad" (mkPrompt "station_one" "Funk" 1 1 "#000") init _ _)).
  - intros q [<-|[]]. cbn. lia.
  - cbn. lia.
Defined.

(** X17.  The table of stations has pairwise different names.  So with the
    dial's own table two different dial positions are never taken for the
    same station by the announcer's dedup guard: tuning from station [i]
    to another station [j] is a real station change, which advances the
    epoch (below the 2^53 limit). *)
Theorem default_stations_distinct
    (i j : nat) (di dj : string * string) (w : World) :
  DEFAULT_PROMPTS !! i = Some di → DEFAULT_PROMPTS !! j = Some dj → i ≠ j →
  snd di ≠ snd dj
  ∧ frequency (Z.of_nat i) ≠ frequency (Z.of_nat j)
  ∧ (currentStationName (sess w) = Some (snd di) →
     stationId (sess w) < 2 ^ 53 →
     stationId (sess (onStationChange (snd dj) (frequency (Z.of_nat j)) w))
     = stationId (sess w) + 1).
Proof.
  intros Hi Hj Hne.
  assert (Hd : snd di ≠ snd dj).
  { do 16 (destruct i as [|i];
           [do 16 (destruct j as [|j]; [by simplify_eq/=|]); done|]).
    done. }
  split_and?; [done| |].
  - intros E. apply frequency_inj in E; lia.
  - intros Hn Hlt. rewrite stationId_onStationChange, Hn. cbn.
    rewrite (proj2 (String.eqb_neq _ _) Hd). by apply incr_lt.
Qed.

Lemma default_stations_distinct_witness :
  "Funk" ≠ "Dubstep" ∧ frequency 5 ≠ frequency 11.
Proof.
  destruct (default_stations_distinct 5 11 ("#2af6de", "Funk")
              ("#ffdd28", "Dubstep") init) as (H1 & H2 & _).
  - reflexivity.
  - reflexivity.
  - lia.
  - split; [exact H1|exact H2].
Defined.

Lemma filter_filter_keep {A} (P Q : A → bool) (l : list A) :
  (∀ x, In x l → P x = true → Q x = true) →
  List.filter P (List.filter Q l) = List.filter P l.
Proof.
  induction l as [|x l IH]; cbn; intros H; [done|].
  assert (IH' := IH (fun y Hy => H y (or_intror Hy))).
  destruct (P x) eqn:HP.
  - rewrite (H x (or_introl eq_refl) HP). cbn. by rewrite HP, IH'.
  - destruct (Q x); cbn; rewrite ?HP; done.
Qed.

(** X18.  Any playback state other than ['playing'] (loading, paused,
    stopped) reaches the announcer as "not playing": it cancels the
    countdown and leaves the settle timeout alone.  When ['playing']
    follows, with a station of non-empty name tuned, exactly one countdown
    is armed, for the current epoch, and it runs the full announce delay
    from that moment, however long the earlier countdown had run. *)
Theorem playback_state_restarts_countdown (w : World) (st : string) :
  reachable w → st ≠ "playing" →
  let w1 := on_playback_state st w in
  let w2 := on_playback_state "playing" w1 in
  isPlayingMusic (sess w1) = false
  ∧ countdowns w1 = []
  ∧ settles w1 = settles w
  ∧ (JS.truthy_opt (currentStationName (sess w)) = true →
     countdowns w2
     = [mkTimer (nextTimer w) (clock w + D_announce)
                (Countdown (stationId (sess w)))]
     ∧ timer (sess w2) = Some (nextTimer w)
     ∧ settles w2 = settles w).
Proof.
  intros Hr Hst. pose proof (reachable_Inv w Hr) as I. cbn zeta.
  unfold on_playback_state.
  rewrite (proj2 (String.eqb_neq _ _) Hst).
  change ("playing" =? "playing")%string with true.
  destruct (Inv_handles w I) as [Hth Hdh].
  pose proof (Inv_setMusicPlaying false w I) as I1.
  destruct (Inv_handles _ I1) as [Hth1 _].
  rewrite (setMusicPlaying_eq true) by done.
  rewrite (setMusicPlaying_eq false w) by done. cbn zeta. cbn [andb].
  set (ts := clear_opt (timer (sess w)) (timers w)).
  assert (Hcd : List.filter (fun e => negb (is_Debounce (t_cb e))) ts = []).
  { apply filter_none. intros e He.
    apply (Inv_clear_timer w e I) in He as [_ ->]. done. }
  assert (Hdb : List.filter (fun e => is_Debounce (t_cb e)) ts = settles w).
  { unfold ts, settles. destruct (timer (sess w)) as [h|] eqn:Ht; [|done].
    cbn [clear_opt]. apply filter_filter_keep. intros e He Hk.
    apply negb_true_iff, Z.eqb_neq. intros <-.
    pose proof (Inv_owner w e I He) as Ho. rewrite Hk in Ho.
    by apply (inv_distinct w I _ Ht). }
  unfold countdowns, settles in *. cbn.
  split_and?; try done.
  intros Hn. rewrite Hn. cbn.
  rewrite !List.filter_app. cbn.
  by rewrite Hcd, Hdb, app_nil_r.
Qed.

Lemma playback_state_restarts_countdown_witness :
  let w := after [StationChange "Funk" "95.5"; SetMusicPlaying true;
                  Elapse 700] in
  countdowns (on_playback_state "loading" w) = [].
Proof.
  cbn zeta.
  refine (proj1 (proj2 (playback_state_restarts_countdown
            (after [StationChange "Funk" "95.5"; SetMusicPlaying true;
                    Elapse 700]) "loading" _ _))).
  - exists [StationChange "Funk" "95.5"; SetMusicPlaying true; Elapse 700].
    vm_compute. reflexivity.
  - discriminate.
Defined.
End DialFacts.
